(** * eicg: a bracketed call-expression language compiled to Python

    A shallow embedding of the three stages of the compiler
    (internal/lexer, internal/parser, internal/printer/printers/python)
    and the properties of its specification.

    Conventions of the embedding:
    - a Go [string] is a [string] (a sequence of bytes); a [rune] is its
      code point in [Z]; Go's [int] row and column counters are [Z];
    - a Go function that can stop the process ([log.Fatal]) or panic
      (index out of range, failed type assertion) returns a [result];
    - the mutable receiver ([*Printer], [*Lexer]) is passed in and
      returned explicitly;
    - writes to standard output ([fmt.Printf] in [lognext],
      [internal.DebugBlock]) are not part of the model. *)

From Stdlib Require Import String Ascii List ZArith Bool Lia.
Import ListNotations.

Local Open Scope list_scope.
Local Open Scope string_scope.

Set Warnings "-register-all".

(** ** Tokens (internal/lexer) *)

Inductive TokenType : Type :=
| TokenUnknown
| TokenSquareBracketOpen
| TokenSquareBracketClose
| TokenComma
| TokenName
| TokenNumber
| TokenSlash
| TokenEquals.

Definition TokenType_eqb (a b : TokenType) : bool :=
  match a, b with
  | TokenUnknown, TokenUnknown
  | TokenSquareBracketOpen, TokenSquareBracketOpen
  | TokenSquareBracketClose, TokenSquareBracketClose
  | TokenComma, TokenComma
  | TokenName, TokenName
  | TokenNumber, TokenNumber
  | TokenSlash, TokenSlash
  | TokenEquals, TokenEquals => true
  | _, _ => false
  end.

Record Location : Type := mkLocation {
  Col : Z;
  Row : Z;
  File : string
}.

Record Token : Type := mkToken {
  Typ : TokenType;
  Value : string;
  Loc : Location
}.

(** [Location{}] *)
Definition noLocation : Location := mkLocation 0 0 "".

Definition UnknownToken : Token := mkToken TokenUnknown "<unknown>" noLocation.

(** ** Outcomes of a Go call *)

(** Go [error] values: [io.EOF], the wrapped [ErrTokenNotExpected] of
    [expectToken] (with the two kind names and the location it formats)
    and the error of [parseExpression] (with the token it dumps). *)
Inductive error : Type :=
| EOF
| ErrTokenNotExpected (expected given : string) (at_ : Location)
| ErrFailedToParseExpression (token : Token).

(** What [log.Fatal] was given. *)
Inductive fatal : Type :=
| FatalError (e : error)
| FatalMessage (m : string).

Inductive result (A : Type) : Type :=
| Ok (a : A)
| Fatal (f : fatal)
| Panic (m : string)
| OutOfFuel.

Arguments Ok {A} a.
Arguments Fatal {A} f.
Arguments Panic {A} m.
Arguments OutOfFuel {A}.

(** A computation over a mutable receiver of type [S]. *)
Definition M (S A : Type) : Type := S -> result (A * S).

Definition ret {S A} (a : A) : M S A := fun s => Ok (a, s).

Definition bind {S A B} (m : M S A) (k : A -> M S B) : M S B :=
  fun s =>
    match m s with
    | Ok (a, s') => k a s'
    | Fatal f => Fatal f
    | Panic m => Panic m
    | OutOfFuel => OutOfFuel
    end.

(** The value of a finished computation, the receiver dropped. *)
Definition lift {S A} (r : result (A * S)) : result A :=
  match r with
  | Ok (a, _) => Ok a
  | Fatal f => Fatal f
  | Panic m => Panic m
  | OutOfFuel => OutOfFuel
  end.

Definition panic {S A} (m : string) : M S A := fun _ => Panic m.
Definition logFatal {S A} (f : fatal) : M S A := fun _ => Fatal f.

Notation "x <- m ;; k" := (bind m (fun x => k))
  (at level 61, m at next level, right associativity).
Notation "m ;;; k" := (bind m (fun _ => k))
  (at level 61, right associativity).

(** [for _, a := range l { out = append(out, f(a)) }] *)
Definition mapM {S A B} (f : A -> M S B) : list A -> M S (list B) :=
  fix go (l : list A) : M S (list B) :=
    match l with
    | [] => ret []
    | a :: l' => b <- f a ;; bs <- go l' ;; ret (b :: bs)
    end.

(** ** Runes and Go's [unicode] package *)

Definition rune := Z.

Local Open Scope Z_scope.

(** Go's [unicode.IsLetter] and [unicode.IsDigit] answer from a fixed
    table for the Latin-1 range and from the Unicode range tables above
    it.  The Latin-1 part is written out; the range tables of the Go
    library are a parameter. *)
Record UnicodeTables : Type := mkTables {
  LetterExcludingLatin : rune -> bool;
  DigitExcludingLatin : rune -> bool
}.

Definition MaxLatin1 : rune := 255.

Definition between (lo hi r : rune) : bool := (lo <=? r) && (r <=? hi).

Definition latin1Letter (r : rune) : bool :=
  between 65 90 r || between 97 122 r
  || (r =? 170) || (r =? 181) || (r =? 186)
  || between 192 214 r || between 216 246 r || between 248 255 r.

Definition IsLetter (U : UnicodeTables) (r : rune) : bool :=
  if between 0 MaxLatin1 r then latin1Letter r else LetterExcludingLatin U r.

Definition IsDigit (U : UnicodeTables) (r : rune) : bool :=
  if r <=? MaxLatin1 then between 48 57 r else DigitExcludingLatin U r.

(** [string(runes)]: the UTF-8 encoding of each rune, U+FFFD for a value
    that is not a Unicode code point. *)
Definition byte (z : Z) : ascii := ascii_of_N (Z.to_N z).

Definition bytes (l : list Z) : string :=
  fold_right (fun z s => String (byte z) s) EmptyString l.

Definition encodeRune (r : rune) : string :=
  if (r <? 0) || (1114111 <? r) || between 55296 57343 r then
    bytes [239; 191; 189]
  else if r <? 128 then
    bytes [r]
  else if r <? 2048 then
    bytes [Z.lor 192 (Z.shiftr r 6); Z.lor 128 (Z.land r 63)]
  else if r <? 65536 then
    bytes [Z.lor 224 (Z.shiftr r 12);
           Z.lor 128 (Z.land (Z.shiftr r 6) 63);
           Z.lor 128 (Z.land r 63)]
  else
    bytes [Z.lor 240 (Z.shiftr r 18);
           Z.lor 128 (Z.land (Z.shiftr r 12) 63);
           Z.lor 128 (Z.land (Z.shiftr r 6) 63);
           Z.lor 128 (Z.land r 63)].

Definition string_of_runes (l : list rune) : string :=
  String.concat "" (map encodeRune l).

(** The runes [ReadRune] yields on an ASCII text, one per byte. *)
Definition runes (s : string) : list rune :=
  map (fun c => Z.of_N (N_of_ascii c)) (list_ascii_of_string s).

(** ** The lexer (internal/lexer/lexer.go) *)

Record TokenResult : Type := mkTokenResult {
  Token_ : Token;
  Error_ : option error
}.

(** [source] is what the [bufio.Reader] has not delivered yet, as runes. *)
Record Lexer : Type := mkLexer {
  row : Z;
  col : Z;
  source : list rune;
  tokenQueue : list TokenResult
}.

Definition New (src : list rune) : Lexer := mkLexer 0 0 src [].

(** The reader after [ReadBytes('\n')]: past the first newline, or at the
    end when there is none (and then [ReadBytes] returns [io.EOF]). *)
Fixpoint afterLine (src : list rune) : list rune :=
  match src with
  | [] => src
  | r :: rest => if r =? 10 then rest else afterLine rest
  end.

Fixpoint hasLine (src : list rune) : bool :=
  match src with
  | [] => false
  | r :: rest => if r =? 10 then true else hasLine rest
  end.

Definition isNewline (r : rune) : bool :=
  (r =? 10) || (r =? 11) || (r =? 12) || (r =? 13).

Definition isBlank (r : rune) : bool :=
  (r =? 32) || (r =? 9) || (r =? 133) || (r =? 160).

(** The state of one call of [next] between two iterations of its loop. *)
Record scanState : Type := mkScan {
  s_row : Z;
  s_col : Z;
  name : list rune;
  number : list rune;
  searchName : bool;
  searchNumber : bool;
  maybeComment : bool
}.

Definition lexed (t : Token) (e : option error) (r c : Z) (src : list rune)
  : TokenResult * (Z * Z * list rune) :=
  (mkTokenResult t e, (r, c, src)).

Section Lexing.

Variable U : UnicodeTables.

(** The loop of [next]: one iteration per rune read. *)
Fixpoint scan (src : list rune) (s : scanState) {struct src}
  : TokenResult * (Z * Z * list rune) :=
  let r0 := s_row s in
  let c0 := s_col s in
  match src with
  | [] => lexed UnknownToken (Some EOF) r0 c0 []
  | r :: rest =>
      if searchName s then
        if IsDigit U r || IsLetter U r then
          scan rest (mkScan r0 (c0 + 1) (name s ++ [r]) (number s)
                            (searchName s) (searchNumber s) (maybeComment s))
        else
          lexed (mkToken TokenName (string_of_runes (name s))
                         (mkLocation (c0 - Z.of_nat (length (name s))) r0 ""))
                None r0 c0 (r :: rest)
      else if searchNumber s then
        if IsDigit U r then
          scan rest (mkScan r0 (c0 + 1) (name s) (number s ++ [r])
                            (searchName s) (searchNumber s) (maybeComment s))
        else
          lexed (mkToken TokenNumber (string_of_runes (number s))
                         (mkLocation (c0 - Z.of_nat (length (number s))) r0 ""))
                None r0 c0 (r :: rest)
      else if IsLetter U r then
        scan rest (mkScan r0 (c0 + 1) (name s ++ [r]) (number s)
                          true (searchNumber s) (maybeComment s))
      else if IsDigit U r then
        scan rest (mkScan r0 (c0 + 1) (name s) (number s ++ [r])
                          (searchName s) true (maybeComment s))
      else if r =? 61 then
        lexed (mkToken TokenEquals "=" noLocation) None r0 c0 rest
      else if isNewline r then
        scan rest (mkScan (r0 + 1) 0 (name s) (number s)
                          (searchName s) (searchNumber s) (maybeComment s))
      else if isBlank r then
        scan rest (mkScan r0 (c0 + 1) (name s) (number s)
                          (searchName s) (searchNumber s) (maybeComment s))
      else if r =? 47 then
        if maybeComment s then
          if hasLine rest then
            scan (afterLine rest)
                 (mkScan r0 c0 (name s) (number s)
                         (searchName s) (searchNumber s) false)
          else lexed UnknownToken (Some EOF) r0 c0 []
        else
          scan rest (mkScan r0 c0 (name s) (number s)
                            (searchName s) (searchNumber s) true)
      else if r =? 91 then
        lexed (mkToken TokenSquareBracketOpen "[" (mkLocation c0 r0 ""))
              None r0 c0 rest
      else if r =? 93 then
        lexed (mkToken TokenSquareBracketClose "]" (mkLocation c0 r0 ""))
              None r0 c0 rest
      else if r =? 44 then
        lexed (mkToken TokenComma "," (mkLocation c0 r0 ""))
              None r0 c0 rest
      else
        (* [break], then [return UnknownToken, io.EOF] *)
        lexed UnknownToken (Some EOF) r0 c0 rest
  end.

Definition next (l : Lexer) : TokenResult * Lexer :=
  let '(t, (r, c, src)) :=
    scan (source l) (mkScan (row l) (col l) [] [] false false false) in
  (t, mkLexer r c src (tokenQueue l)).

(** [lognext] adds a trace line on standard output to [next]. *)
Definition lognext (l : Lexer) : TokenResult * Lexer := next l.

(** [for i := len(l.tokenQueue); i < count; i += 1 { append(lognext()) }] *)
Fixpoint fill (n : nat) (l : Lexer) : Lexer :=
  match n with
  | O => l
  | S n' =>
      let '(t, l') := lognext l in
      fill n' (mkLexer (row l') (col l') (source l') (tokenQueue l' ++ [t]))
  end.

(** [l.tokenQueue[count-1]] *)
Definition queued (count : nat) : M Lexer TokenResult :=
  fun l =>
    match count with
    | O => Panic "index out of range [-1]"
    | S i =>
        match nth_error (tokenQueue l) i with
        | Some t => Ok (t, l)
        | None => Panic "index out of range"
        end
    end.

Definition Consume : M Lexer unit :=
  fun l =>
    match tokenQueue l with
    | [] => Fatal (FatalMessage "consume called with empty queue")
    | _ :: q => Ok (tt, mkLexer (row l) (col l) (source l) q)
    end.

Definition Peek (count : nat) : M Lexer TokenResult :=
  fun l =>
    queued count (fill (count - length (tokenQueue l)) l).

Definition MustPeek (count : nat) : M Lexer Token :=
  t <- Peek count ;;
  match Error_ t with
  | Some e => logFatal (FatalError e)
  | None => ret (Token_ t)
  end.

Definition Next : M Lexer TokenResult :=
  fun l =>
    match tokenQueue l with
    | t :: q => Ok (t, mkLexer (row l) (col l) (source l) q)
    | [] => Ok (lognext l)
    end.

End Lexing.

Local Close Scope Z_scope.
(** ** The AST (internal/parser/types.go) *)

Inductive Expression : Type :=
| VariableReferenceExpression (Value : string)
| LiteralNumberExpression (Value : string)
| CallExpression (Args : list Expression) (Call : string)
| AssignmentExpression (Lhs Rhs : Expression).

Inductive Statement : Type :=
| BlockStatement (Expressions : list Expression).

(** ** The parser (internal/parser/parser.go) *)

(** [func (t TokenType) String() string]; the default case stops the
    process. *)
Definition TokenType_String {S : Type} (t : TokenType) : M S string :=
  match t with
  | TokenSquareBracketOpen => ret "open square bracket"
  | TokenSquareBracketClose => ret "close square bracket"
  | TokenName => ret "name"
  | TokenNumber => ret "number"
  | TokenComma => ret "literal comma"
  | TokenSlash => ret "slash"
  | TokenEquals => ret "equals sign"
  | TokenUnknown => logFatal (FatalMessage "unreachable: trying to print null-token")
  end.

(** A Go pair [(value, error)] as the parser returns it: the value when
    the error is [nil], the error otherwise. *)
Inductive orError (A : Type) : Type :=
| Value_ (a : A)
| Error (e : error).

Arguments Value_ {A} a.
Arguments Error {A} e.

Section Parsing.

Variable U : UnicodeTables.

Definition expectToken (tokenType : TokenType) : M Lexer TokenResult :=
  t <- Next U ;;
  match Error_ t with
  | Some err => ret (mkTokenResult UnknownToken (Some err))
  | None =>
      if TokenType_eqb (Typ (Token_ t)) tokenType then
        ret (mkTokenResult (Token_ t) None)
      else
        expected <- TokenType_String tokenType ;;
        given <- TokenType_String (Typ (Token_ t)) ;;
        ret (mkTokenResult UnknownToken
               (Some (ErrTokenNotExpected expected given (Loc (Token_ t)))))
  end.

(** The four mutually recursive parsing functions and the loop of
    [parseArgs].  [fuel] bounds the depth of calls and the number of loop
    iterations; a run that exhausts it is [OutOfFuel]. *)
Fixpoint parseCall (fuel : nat) : M Lexer (orError Expression) :=
  match fuel with
  | O => fun _ => OutOfFuel
  | S fuel =>
      called <- expectToken TokenName ;;
      match Error_ called with
      | Some err => ret (Error err)
      | None =>
          expectToken TokenSquareBracketOpen ;;;
          args <- parseArgs fuel ;;
          match args with
          | Error err => ret (Error err)
          | Value_ args =>
              expectToken TokenSquareBracketClose ;;;
              ret (Value_ (CallExpression args (Value (Token_ called))))
          end
      end
  end

with parseAssignment (fuel : nat) : M Lexer (orError Expression) :=
  match fuel with
  | O => fun _ => OutOfFuel
  | S fuel =>
      lhs <- expectToken TokenName ;;
      match Error_ lhs with
      | Some err => ret (Error err)
      | None =>
          expectToken TokenEquals ;;;
          rhs <- parseExpression fuel ;;
          match rhs with
          | Error err => ret (Error err)
          | Value_ rhs =>
              ret (Value_ (AssignmentExpression
                             (VariableReferenceExpression (Value (Token_ lhs)))
                             rhs))
          end
      end
  end

with parseExpression (fuel : nat) : M Lexer (orError Expression) :=
  match fuel with
  | O => fun _ => OutOfFuel
  | S fuel =>
      token <- Peek U 1 ;;
      match Error_ token with
      | Some err => ret (Error err)
      | None =>
          let token := Token_ token in
          if TokenType_eqb (Typ token) TokenName then
            t <- Peek U 2 ;;
            if match Error_ t with
               | None => TokenType_eqb (Typ (Token_ t)) TokenSquareBracketOpen
               | Some _ => false
               end
            then parseCall fuel
            else
              t <- Peek U 2 ;;
              if match Error_ t with
                 | None => TokenType_eqb (Typ (Token_ t)) TokenEquals
                 | Some _ => false
                 end
              then parseAssignment fuel
              else
                Consume ;;;
                ret (Value_ (VariableReferenceExpression (Value token)))
          else if TokenType_eqb (Typ token) TokenNumber then
            Consume ;;;
            ret (Value_ (LiteralNumberExpression (Value token)))
          else ret (Error (ErrFailedToParseExpression token))
      end
  end

with parseArgs (fuel : nat) : M Lexer (orError (list Expression)) :=
  match fuel with
  | O => fun _ => OutOfFuel
  | S fuel =>
      token <- MustPeek U 1 ;;
      if negb (TokenType_eqb (Typ token) TokenSquareBracketClose) then
        e <- parseExpression fuel ;;
        match e with
        | Error err => ret (Error err)
        | Value_ e => parseArgsLoop fuel [e]
        end
      else ret (Value_ [])
  end

with parseArgsLoop (fuel : nat) (args : list Expression)
  : M Lexer (orError (list Expression)) :=
  match fuel with
  | O => fun _ => OutOfFuel
  | S fuel =>
      token <- Peek U 1 ;;
      match Error_ token with
      | Some err => ret (Error err)
      | None =>
          if TokenType_eqb (Typ (Token_ token)) TokenComma then
            Consume ;;;
            e <- parseExpression fuel ;;
            match e with
            | Error err => ret (Error err)
            | Value_ e => parseArgsLoop fuel (args ++ [e])%list
            end
          else ret (Value_ args)
      end
  end.

(** The loop of [Parse]: only [io.EOF] ends it cleanly. *)
Fixpoint parseBlock (fuel : nat) (expressions : list Expression)
  : M Lexer Statement :=
  match fuel with
  | O => fun _ => OutOfFuel
  | S fuel =>
      e <- parseCall fuel ;;
      match e with
      | Error EOF => ret (BlockStatement expressions)
      | Error err => logFatal (FatalError err)
      | Value_ e => parseBlock fuel (expressions ++ [e])%list
      end
  end.

Definition Parse (fuel : nat) : M Lexer Statement := parseBlock fuel [].

End Parsing.

(** ** The Python printer (internal/printer/printers/python/python.go) *)

Record Printer : Type := mkPrinter {
  usingAssocBuiltin : bool;
  usingPrintBuiltin : bool
}.

Definition P := M Printer.

Definition setAssoc : P unit :=
  fun p => Ok (tt, mkPrinter true (usingPrintBuiltin p)).

Definition setPrint : P unit :=
  fun p => Ok (tt, mkPrinter (usingAssocBuiltin p) true).

Definition Join (l : list string) (sep : string) : string := String.concat sep l.

(** [a.Lhs.(parser.VariableReferenceExpression).Value] *)
Definition asVariable (e : Expression) : P string :=
  match e with
  | VariableReferenceExpression v => ret v
  | _ => panic "interface conversion: parser.Expression is not parser.VariableReferenceExpression"
  end.

(** [args[i]] on the rendered arguments *)
Definition index (args : list string) (i : nat) : P string :=
  match nth_error args i with
  | Some s => ret s
  | None => panic "index out of range"
  end.

(** [args[1:]] *)
Definition sliceFrom1 (args : list string) : P (list string) :=
  match args with
  | [] => panic "slice bounds out of range [1:0]"
  | _ :: t => ret t
  end.

(** The [Let] rule: the loop over [e.Args[0 .. len-2]] that collects the
    parameters, followed by the rendering of [e.Args[len-1]]. *)
Definition letForm (pe : Expression -> P string) : list Expression -> list string -> P (list string * string) :=
  fix go (l : list Expression) (params : list string) : P (list string * string) :=
    match l with
    | [] => panic "index out of range [-1]"
    | a :: rest =>
        match rest with
        | [] => body <- pe a ;; ret (params, body)
        | _ :: _ =>
            params1 <-
              match a with
              | AssignmentExpression lhs rhs =>
                  variable <- asVariable lhs ;;
                  value <- pe rhs ;;
                  ret (app params [variable ++ " = " ++ value])
              | _ => ret params
              end ;;
            params2 <-
              match a with
              | VariableReferenceExpression v => ret (app params1 [v])
              | _ => ret params1
              end ;;
            go rest params2
        end
    end.

(** The loop over [paramDef.Args] of the [Def] rule. *)
Definition defParams (pe : Expression -> P string) : list Expression -> list string -> P (list string) :=
  fix go (l : list Expression) (params : list string) : P (list string) :=
    match l with
    | [] => ret params
    | arg :: rest =>
        params' <-
          match arg with
          | VariableReferenceExpression argname => ret (app params [argname])
          | CallExpression subargs call =>
              if call =? "Args" then
                subparams <- mapM pe subargs ;;
                ret (app params subparams)
              else if call =? "HashMap" then
                match subargs with
                | _ :: _ :: _ => logFatal (FatalMessage "HashMap currently accept only one argument")
                | [] => panic "index out of range [0] with length 0"
                | k :: _ => v <- asVariable k ;; ret (app params [v ++ " = dict()"])
                end
              else ret params
          | AssignmentExpression lhs rhs =>
              v <- asVariable lhs ;;
              value <- pe rhs ;;
              ret (app params [v ++ " = " ++ value])
          | LiteralNumberExpression _ => ret params
          end ;;
        go rest params'
    end.

Fixpoint printExpression (e : Expression) : P string :=
  match e with
  | CallExpression eargs call =>
      args <- mapM printExpression eargs ;;
      if call =? "Print" then
        setPrint ;;;
        ret ("builtin__print(" ++ Join args "," ++ ")")
      else if call =? "Let" then
        r <- letForm printExpression eargs [] ;;
        ret ("lambda " ++ Join (fst r) ", " ++ ": " ++ snd r)
      else if call =? "HashMap" then
        ret "dict()"
      else if call =? "Map" then
        a0 <- index args 0 ;;
        t <- sliceFrom1 args ;;
        ret ("map(" ++ a0 ++ ", " ++ Join t ", " ++ ")")
      else if call =? "List" then
        ret ("[" ++ Join args ", " ++ "]")
      else if call =? "Call" then
        a0 <- index args 0 ;;
        t <- sliceFrom1 args ;;
        ret ("((" ++ a0 ++ ")(" ++ Join t "," ++ "))")
      else if call =? "Assoc" then
        setAssoc ;;;
        a0 <- index args 0 ;;
        a1 <- index args 1 ;;
        a2 <- index args 2 ;;
        ret ("builtin__assoc(" ++ a0 ++ ", " ++ a1 ++ ", " ++ a2 ++ ")")
      else if call =? "Has" then
        setAssoc ;;;
        a1 <- index args 1 ;;
        a0 <- index args 0 ;;
        ret ("(" ++ a1 ++ ".get(" ++ a0 ++ ", None) != None)")
      else if call =? "Get" then
        setAssoc ;;;
        a1 <- index args 1 ;;
        a0 <- index args 0 ;;
        ret ("(" ++ a1 ++ ".get(" ++ a0 ++ "))")
      else if call =? "Cond" then
        match eargs with
        | c :: t :: rest =>
            st <- printExpression t ;;
            sc <- printExpression c ;;
            match rest with
            | f :: _ =>
                sf <- printExpression f ;;
                ret (st ++ " if " ++ sc ++ " else " ++ sf)
            | [] => panic "index out of range [2] with length 2"
            end
        | _ => panic "index out of range [1]"
        end
      else
        let generic := ret (call ++ "(" ++ Join args "," ++ ")") in
        if call =? "Def" then
          match eargs with
          | [] => panic "index out of range [0] with length 0"
          | VariableReferenceExpression defname :: rest =>
              match rest with
              | a1 :: a2 :: _ =>
                  params <-
                    match a1 with
                    | CallExpression pargs pcall =>
                        if pcall =? "Args" then defParams printExpression pargs []
                        else ret []
                    | _ => ret []
                    end ;;
                  body <- printExpression a2 ;;
                  ret (defname ++ " = lambda " ++ Join params ", " ++ ": " ++ body)
              | _ => generic
              end
          | AssignmentExpression lhs rhs :: _ =>
              v <- asVariable lhs ;;
              value <- printExpression rhs ;;
              ret (v ++ " = " ++ value)
          | _ => generic
          end
        else if call =? "Inc" then
          ret (Join (map (fun a => a ++ "+1") args) ",")
        else generic
  | LiteralNumberExpression v => ret v
  | VariableReferenceExpression v => ret v
  | AssignmentExpression _ _ => ret "<unknown>"
  end.

Definition printStatement (s : Statement) : P string :=
  match s with
  | BlockStatement es =>
      expressions <- mapM printExpression es ;;
      ret (Join expressions (String "010" EmptyString))
  end.

Definition nl : string := String "010" EmptyString.

Definition printAssocBuiltin : string :=
  "def builtin__assoc(k, v, obj):" ++ nl ++ "  obj[k] = v" ++ nl ++ "  return obj" ++ nl.

Definition printPrintBuiltin : string :=
  "def builtin__print(*args, **kwargs):" ++ nl ++ "  print(*args, **kwargs)" ++ nl ++ "  return args[0]" ++ nl.

(** [func (p *Printer) String(ast parser.Statement) string] *)
Definition String_ (ast : Statement) : P string :=
  st <- printStatement ast ;;
  fun p =>
    let st := if usingAssocBuiltin p then printAssocBuiltin ++ nl ++ st else st in
    let st := if usingPrintBuiltin p then printPrintBuiltin ++ nl ++ st else st in
    Ok (st, p).

(** [func (p *Printer) PrintPython() string]: a fresh [python.Printer{}]. *)
Definition PrintPython (ast : Statement) : result string :=
  lift (String_ ast (mkPrinter false false)).


(** ** The pipeline (cmd/exig/main.go) *)

(** Fuel that is enough for every source text (see [Parse_terminates]). *)
Definition enough (src : list rune) : nat := 3 * length src + 3.

(** [printer.New(parser.New(lexer.New(src)).Parse()).PrintPython()] *)
Definition compile (U : UnicodeTables) (src : list rune) : result string :=
  match Parse U (enough src) (New src) with
  | Ok (ast, _) => PrintPython ast
  | Fatal f => Fatal f
  | Panic m => Panic m
  | OutOfFuel => OutOfFuel
  end.

(** [writeOutput] of main.go.  The loop runs from the last byte of
    [source] down to the first path separator; [i] is one more than the
    index of the iteration, the result the calls of [os.WriteFile] in
    order, each with the name and the data it is given (what
    [os.WriteFile] returns is dropped by the code).  [os.IsPathSeparator]
    depends on the platform and is a parameter. *)
Fixpoint writeOutputFrom (IsPathSeparator : ascii -> bool)
    (value : string) (source : list ascii) (extension : string) (i : nat)
  : list (string * string) :=
  match i with
  | O => []
  | S j =>
      match nth_error source j with
      | None => []
      | Some c =>
          if IsPathSeparator c then []
          else
            app (if Ascii.eqb c "." then
                   [(string_of_list_ascii (firstn j source) ++ extension, value)]
                 else [])
                (writeOutputFrom IsPathSeparator value source extension j)
      end
  end.

Definition writeOutput (IsPathSeparator : ascii -> bool)
    (value source extension : string) : list (string * string) :=
  writeOutputFrom IsPathSeparator value (list_ascii_of_string source) extension
    (length (list_ascii_of_string source)).

(** [os.IsPathSeparator] on Unix. *)
Definition unixSeparator (c : ascii) : bool := Ascii.eqb c "/".

(** ** Names of the specification *)

Definition Var := VariableReferenceExpression.
Definition Num := LiteralNumberExpression.
Definition CallOf (call : string) (args : list Expression) := CallExpression args call.
Definition Assign := AssignmentExpression.

(** The call names with a rendering rule of their own. *)
Definition special_forms : list string :=
  ["Print"; "Let"; "HashMap"; "Map"; "List"; "Call";
   "Assoc"; "Has"; "Get"; "Cond"; "Def"; "Inc"].

Definition is_special (call : string) : bool :=
  existsb (String.eqb call) special_forms.

(** Every call name of the expression is generic. *)
Fixpoint generic (e : Expression) : bool :=
  match e with
  | CallExpression args call => negb (is_special call) && forallb generic args
  | AssignmentExpression lhs rhs => generic lhs && generic rhs
  | _ => true
  end.

(** The transliteration of the specification: [F[a,b]] becomes [F(a,b)],
    names and numbers stay, an assignment in argument position has no
    rendering of its own. *)
Fixpoint transliterate (e : Expression) : string :=
  match e with
  | CallExpression args call => call ++ "(" ++ Join (map transliterate args) "," ++ ")"
  | VariableReferenceExpression v => v
  | LiteralNumberExpression v => v
  | AssignmentExpression _ _ => "<unknown>"
  end.

(** ** Notions used in the statements *)

Definition let_print : Expression :=
  CallOf "Let" [Var "x"; CallOf "Print" [Var "x"]].

Definition def_myprint : Expression :=
  CallOf "Def" [Var "MyPrint"; CallOf "Args" [Var "x"]; CallOf "Print" [Var "x"]].

Definition endOfStream : TokenResult := mkTokenResult UnknownToken (Some EOF).

(** The runes the loop of [next] has a rule for when it is not inside a
    name or a number. *)
Definition recognized (U : UnicodeTables) (r : rune) : bool :=
  IsLetter U r || IsDigit U r || isNewline r || isBlank r
  || existsb (Z.eqb r) [61; 47; 91; 93; 44]%Z.

(** Tables for a text within Latin-1. *)
Definition latin1Only : UnicodeTables := mkTables (fun _ => false) (fun _ => false).

Definition name_token (v : string) (c : Z) : TokenResult :=
  mkTokenResult (mkToken TokenName v (mkLocation c 0 "")) None.

Definition assoc_form (call : string) : bool :=
  (call =? "Assoc") || (call =? "Has") || (call =? "Get").

(** An assignment whose right-hand side the printer renders: a binding of
    [Let], a parameter of [Def], the argument of [Def[name = value]]. *)
Definition rhs_uses (u : Expression -> bool) (a : Expression) : bool :=
  match a with
  | AssignmentExpression _ rhs => u rhs
  | _ => false
  end.

(** The bindings of a [Let]: every argument but the last. *)
Definition bindings (u : Expression -> bool) : list Expression -> bool :=
  fix go (l : list Expression) : bool :=
    match l with
    | [] => false
    | a :: rest =>
        match rest with
        | [] => false
        | _ :: _ => rhs_uses u a || go rest
        end
    end.

(** The rendering of [e] uses one of [Assoc], [Has], [Get]: [e] is such a
    call, or the rendering of [e] renders an expression that uses one.
    Every argument of a call is rendered; an assignment is rendered only
    where a rule reads it, and then its right-hand side is. *)
Fixpoint uses_assoc (e : Expression) : bool :=
  match e with
  | CallExpression args call =>
      assoc_form call
      || existsb uses_assoc args
      || (if call =? "Let" then bindings uses_assoc args
          else if call =? "Def" then
            match args with
            | AssignmentExpression _ rhs :: _ => uses_assoc rhs
            | VariableReferenceExpression _ :: CallExpression pargs pcall :: _ :: _ =>
                (pcall =? "Args") && existsb (rhs_uses uses_assoc) pargs
            | _ => false
            end
          else false)
  | _ => false
  end.

Definition block_uses_assoc (s : Statement) : bool :=
  match s with
  | BlockStatement es => existsb uses_assoc es
  end.

(** [fmt.Sprintf("%s\n%s", helper, st)] when the flag is set. *)
Definition prepend (flag : bool) (helper st : string) : string :=
  if flag then helper ++ nl ++ st else st.

Fixpoint size (e : Expression) : nat :=
  match e with
  | CallExpression args _ => S (list_sum (map size args))
  | AssignmentExpression lhs rhs => S (size lhs + size rhs)
  | _ => 1
  end.

(** The flag after a rendering is the flag before, or set by a use. *)
Definition tracks (e : Expression) : Prop :=
  forall p s p',
    printExpression e p = Ok (s, p') -> usingAssocBuiltin p' = usingAssocBuiltin p || uses_assoc e.

(** The memoizing definition of the sample program, followed by a
    printed lookup. *)
Definition cache_program : Statement :=
  BlockStatement
    [CallOf "Def"
       [Var "CacheResult";
        CallOf "Args" [Var "f"; CallOf "HashMap" [Var "kv"]];
        CallOf "Let"
          [Var "x";
           CallOf "Cond"
             [CallOf "Has" [Var "x"; Var "kv"];
              CallOf "Get" [Var "x"; Var "kv"];
              CallOf "Assoc" [Var "x"; CallOf "f" [Var "x"]; Var "kv"]]]];
     CallOf "Print" [CallOf "Get" [Var "a"; Var "m"]]].

Definition cache_main : string :=
  "CacheResult = lambda f, kv = dict(): lambda x: (kv.get(x)) if (kv.get(x, None) != None) else builtin__assoc(x, f(x), kv)"
  ++ nl ++ "builtin__print((m.get(a)))".

Definition ok (t : TokenResult) : bool :=
  match Error_ t with
  | None => true
  | Some _ => false
  end.

(** What is left to read: the runes of the source and the tokens of the
    queue. *)
Definition pending (l : Lexer) : nat :=
  length (source l) + length (filter ok (tokenQueue l)).

Definition headOk (l : Lexer) : Prop :=
  match tokenQueue l with
  | t :: _ => Error_ t = None
  | [] => False
  end.

Definition settled {A} (r1 r2 : result A) : Prop :=
  r1 = OutOfFuel \/ r1 = r2.

(** ** Notions used for the lexer *)

(** The kinds [next] has a rule for. *)
Definition producible (k : TokenType) : bool :=
  match k with
  | TokenSquareBracketOpen | TokenSquareBracketClose | TokenComma
  | TokenName | TokenNumber | TokenEquals => true
  | TokenUnknown | TokenSlash => false
  end.

Definition alnum (U : UnicodeTables) (r : rune) : bool :=
  IsDigit U r || IsLetter U r.

(** A letter followed by letters and digits. *)
Definition identifier (U : UnicodeTables) (ns : list rune) : bool :=
  match ns with
  | [] => false
  | r :: rest => IsLetter U r && forallb (alnum U) rest
  end.

(** One digit or more. *)
Definition digits (U : UnicodeTables) (ns : list rune) : bool :=
  match ns with
  | [] => false
  | _ :: _ => forallb (IsDigit U) ns
  end.

(** The first rune of the rest of the source ends a name or a number. *)
Definition delimited (p : rune -> bool) (src : list rune) : bool :=
  match src with
  | [] => false
  | r :: _ => negb (p r)
  end.

Definition notNewline (r : rune) : bool := negb (r =? 10)%Z.

(** What the loop of [next] keeps true of the runes it collects. *)
Definition nameInvariant (U : UnicodeTables) (s : scanState) : Prop :=
  if searchName s then identifier U (name s) = true else name s = [].

Definition numberInvariant (U : UnicodeTables) (s : scanState) : Prop :=
  if searchNumber s then digits U (number s) = true else number s = [].

(** What a token carries, by kind. *)
Definition shaped (U : UnicodeTables) (t : Token) (rest : list rune) : Prop :=
  match Typ t with
  | TokenName =>
      exists ns, Value t = string_of_runes ns
                 /\ identifier U ns = true
                 /\ delimited (alnum U) rest = true
  | TokenNumber =>
      exists ns, Value t = string_of_runes ns
                 /\ digits U ns = true
                 /\ delimited (IsDigit U) rest = true
  | TokenSquareBracketOpen => Value t = "["
  | TokenSquareBracketClose => Value t = "]"
  | TokenComma => Value t = ","
  | TokenEquals => Value t = "="
  | TokenSlash => False
  | TokenUnknown => t = UnknownToken
  end.

(** ** Notions used for the parser *)

(** Every token of the queue that came without an error has a kind. *)
Definition soundQueue (l : Lexer) : Prop :=
  Forall (fun t => Error_ t = None -> Typ (Token_ t) <> TokenUnknown)
         (tokenQueue l).

(** A run that did not break the parser's own assumptions: no panic and
    no [log.Fatal] with a message of the lexer ("consume called with
    empty queue", "unreachable: trying to print null-token"). *)
Definition safe {A} (r : result (A * Lexer)) : Prop :=
  match r with
  | Ok (_, l) => soundQueue l
  | Fatal (FatalError _) => True
  | Fatal (FatalMessage _) => False
  | Panic _ => False
  | OutOfFuel => True
  end.

(** The left-hand side of every assignment is a name. *)
Fixpoint lhsIsName (e : Expression) : bool :=
  match e with
  | AssignmentExpression lhs rhs =>
      match lhs with
      | VariableReferenceExpression _ => lhsIsName rhs
      | _ => false
      end
  | CallExpression args _ => forallb lhsIsName args
  | _ => true
  end.

Definition isCall (e : Expression) : bool :=
  match e with
  | CallExpression _ _ => true
  | _ => false
  end.

(** The runes [next] skips without a token. *)
Definition layout (r : rune) : bool := isNewline r || isBlank r.

(** The name [TokenType.String] gives a kind that has one. *)
Definition kindName (k : TokenType) : string :=
  match k with
  | TokenSquareBracketOpen => "open square bracket"
  | TokenSquareBracketClose => "close square bracket"
  | TokenName => "name"
  | TokenNumber => "number"
  | TokenComma => "literal comma"
  | TokenSlash => "slash"
  | TokenEquals => "equals sign"
  | TokenUnknown => "<unknown>"
  end.

(** ** Notions used for the printer *)

(** The rendering of [e] uses [Print], with the rendered positions of
    [uses_assoc]. *)
Fixpoint uses_print (e : Expression) : bool :=
  match e with
  | CallExpression args call =>
      (call =? "Print")
      || existsb uses_print args
      || (if call =? "Let" then bindings uses_print args
          else if call =? "Def" then
            match args with
            | AssignmentExpression _ rhs :: _ => uses_print rhs
            | VariableReferenceExpression _ :: CallExpression pargs pcall :: _ :: _ =>
                (pcall =? "Args") && existsb (rhs_uses uses_print) pargs
            | _ => false
            end
          else false)
  | _ => false
  end.

Definition block_uses_print (s : Statement) : bool :=
  match s with
  | BlockStatement es => existsb uses_print es
  end.

Definition tracksPrint (e : Expression) : Prop :=
  forall p s p',
    printExpression e p = Ok (s, p') ->
    usingPrintBuiltin p' = usingPrintBuiltin p || uses_print e.

(** The least number of arguments with which a rule can render. *)
Definition arity (call : string) : nat :=
  if call =? "Let" then 1
  else if call =? "Map" then 1
  else if call =? "Call" then 1
  else if call =? "Assoc" then 3
  else if call =? "Has" then 2
  else if call =? "Get" then 2
  else if call =? "Cond" then 3
  else if call =? "Def" then 1
  else 0.

(** The shapes of [Def] that no branch of its rule returns for. *)
Definition defFallsThrough (args : list Expression) : bool :=
  match args with
  | VariableReferenceExpression _ :: rest => Nat.ltb (length rest) 2
  | LiteralNumberExpression _ :: _ => true
  | CallExpression _ _ :: _ => true
  | _ => false
  end.

(** The parameter a binding of [Let] gives, when its value is generic. *)
Definition binding (a : Expression) : list string :=
  match a with
  | VariableReferenceExpression v => [v]
  | AssignmentExpression (VariableReferenceExpression v) rhs =>
      [v ++ " = " ++ transliterate rhs]
  | _ => []
  end.

(** An assignment has a name on its left. *)
Definition namedBinding (a : Expression) : bool :=
  match a with
  | AssignmentExpression (VariableReferenceExpression _) _ => true
  | AssignmentExpression _ _ => false
  | _ => true
  end.

(** ** Notions used for the round trip of the parser *)






(** ** Notions used for the output file *)

(** What stands before each dot of a file name, the last dot first. *)
Fixpoint dotPrefixes (base : list ascii) : list (list ascii) :=
  match base with
  | [] => []
  | c :: rest =>
      (map (cons c) (dotPrefixes rest)
       ++ (if Ascii.eqb c "." then [[]] else []))%list
  end.

(** A directory part: empty, or ending with a separator. *)
Definition directory (IsPathSeparator : ascii -> bool) (dir : list ascii) : bool :=
  match rev dir with
  | [] => true
  | c :: _ => IsPathSeparator c
  end.

(** * Properties *)

(** ** Induction over expressions *)

Lemma Expression_rect' (P : Expression -> Prop) :
  (forall v, P (VariableReferenceExpression v)) ->
  (forall v, P (LiteralNumberExpression v)) ->
  (forall args call, Forall P args -> P (CallExpression args call)) ->
  (forall lhs rhs, P lhs -> P rhs -> P (AssignmentExpression lhs rhs)) ->
  forall e, P e.
Proof.
  intros Hv Hn Hc Ha.
  fix IH 1.
  intros [v | v | args call | lhs rhs].
  - apply Hv.
  - apply Hn.
  - apply Hc. induction args as [| a args IHargs]; constructor.
    + apply IH.
    + exact IHargs.
  - apply Ha; apply IH.
Qed.

(** ** Generic calls *)

Lemma mapM_pure {S A B} (f : A -> M S B) (g : A -> B) (l : list A) :
  Forall (fun a => forall s, f a s = Ok (g a, s)) l ->
  forall s, mapM f l s = Ok (map g l, s).
Proof.
  induction 1 as [| a l Ha _ IH]; intros s; simpl.
  - reflexivity.
  - unfold bind. rewrite Ha, IH. reflexivity.
Qed.

Lemma not_special call :
  is_special call = false ->
  (call =? "Print") = false /\ (call =? "Let") = false /\
  (call =? "HashMap") = false /\ (call =? "Map") = false /\
  (call =? "List") = false /\ (call =? "Call") = false /\
  (call =? "Assoc") = false /\ (call =? "Has") = false /\
  (call =? "Get") = false /\ (call =? "Cond") = false /\
  (call =? "Def") = false /\ (call =? "Inc") = false.
Proof.
  unfold is_special, special_forms. cbn [existsb].
  intros H.
  repeat (apply orb_false_elim in H; destruct H as [? H]).
  repeat split; assumption.
Qed.

Lemma generic_rule call args p :
  is_special call = false ->
  printExpression (CallExpression args call) p =
    (rendered <- mapM printExpression args ;;
     ret (call ++ "(" ++ Join rendered "," ++ ")")) p.
Proof.
  intros H. apply not_special in H.
  destruct H as (H1 & H2 & H3 & H4 & H5 & H6 & H7 & H8 & H9 & H10 & H11 & H12).
  cbn [printExpression]. unfold bind.
  destruct (mapM printExpression args p) as [[rendered p'] | | |]; try reflexivity.
  rewrite H1, H2, H3, H4, H5, H6, H7, H8, H9, H10, H11, H12.
  reflexivity.
Qed.

Lemma generic_pure e :
  generic e = true -> forall p, printExpression e p = Ok (transliterate e, p).
Proof.
  induction e as [v | v | args call IH | lhs rhs _ _] using Expression_rect';
    intros G p; try reflexivity.
  cbn [generic] in G. apply andb_prop in G. destruct G as [Hs Hargs].
  apply negb_true_iff in Hs.
  rewrite generic_rule by assumption.
  unfold bind. rewrite (mapM_pure printExpression transliterate).
  - reflexivity.
  - rewrite forallb_forall in Hargs. rewrite Forall_forall in *.
    intros a Ha. apply IH; auto.
Qed.

(** C1. A call whose name is not a special form renders as its name, an
    open parenthesis, the renderings of its arguments joined by commas and
    a close parenthesis, whatever its arguments are; and when no call in
    the arguments is a special form either, the rendering succeeds, leaves
    the printer's flags alone and is the transliteration [F(a,b)] of
    [F[a,b]] all the way down. *)
Theorem generic_call_rendering :
  forall (call : string) (args : list Expression) (p : Printer),
    is_special call = false ->
    printExpression (CallExpression args call) p =
      (rendered <- mapM printExpression args ;;
       ret (call ++ "(" ++ Join rendered "," ++ ")")) p
    /\ (forallb generic args = true ->
        printExpression (CallExpression args call) p =
          Ok (call ++ "(" ++ Join (map transliterate args) "," ++ ")", p)).
Proof.
  intros call args p H. split.
  - apply generic_rule, H.
  - intros G.
    apply (generic_pure (CallExpression args call)).
    cbn [generic]. rewrite H, G. reflexivity.
Qed.

Lemma generic_call_rendering_witness :
  is_special "F" = false /\
  printExpression
    (CallOf "F" [CallOf "G" [Num "1"; Var "a"]; Num "2"; Var "b";
                 Assign (Var "x") (Num "3")])
    (mkPrinter false false)
  = Ok ("F(G(1,a),2,b,<unknown>)", mkPrinter false false).
Proof.
  split; [reflexivity |].
  apply (generic_call_rendering "F"
           [CallOf "G" [Num "1"; Var "a"]; Num "2"; Var "b";
            Assign (Var "x") (Num "3")]
           (mkPrinter false false)); reflexivity.
Defined.

(** ** Assignments in expression position *)

(** C10. An assignment that reaches [printExpression] itself (an argument
    of a generic call, of [List] or [Map], the body of a [Let]) is
    rendered as the text [<unknown>]; the printer's flags do not change. *)
Theorem assignment_renders_unknown :
  forall (lhs rhs : Expression) (p : Printer),
    printExpression (Assign lhs rhs) p = Ok ("<unknown>", p)
    /\ printExpression (CallOf "F" [Assign lhs rhs]) p = Ok ("F(<unknown>)", p)
    /\ printExpression (CallOf "F" [Assign (Var "x") (Num "1")]) p
       = Ok ("F(<unknown>)", p)
    /\ printExpression (CallOf "List" [Num "1"; Assign lhs rhs]) p
       = Ok ("[1, <unknown>]", p)
    /\ printExpression (CallOf "Map" [Var "f"; Assign lhs rhs]) p
       = Ok ("map(f, <unknown>)", p)
    /\ printExpression (CallOf "Let" [Var "x"; Assign lhs rhs]) p
       = Ok ("lambda x: <unknown>", p).
Proof.
  intros lhs rhs p. repeat split; reflexivity.
Qed.

(** ** The examples of the specification *)

(** C4. [Let[x, Print[x]]] is rendered as [lambda x: builtin__print(x)]
    and marks the print helper as used; the output for the program made
    of this one call is the print helper, a newline and that statement,
    from the AST and from the source text alike. *)
Theorem let_print_example :
  forall (U : UnicodeTables) (p : Printer),
    printExpression let_print p
      = Ok ("lambda x: builtin__print(x)", mkPrinter (usingAssocBuiltin p) true)
    /\ PrintPython (BlockStatement [let_print])
       = Ok (printPrintBuiltin ++ nl ++ "lambda x: builtin__print(x)")
    /\ lift (Parse U (enough (runes "Let[x, Print[x]]")) (New (runes "Let[x, Print[x]]")))
       = Ok (BlockStatement [let_print])
    /\ compile U (runes "Let[x, Print[x]]")
       = Ok (printPrintBuiltin ++ nl ++ "lambda x: builtin__print(x)").
Proof.
  intros U p. repeat split; reflexivity.
Qed.

(** C9. [Def[MyPrint, Args[x], Print[x]]] is rendered as
    [MyPrint = lambda x: builtin__print(x)], and that call is what the
    parser builds from the source text. *)
Theorem def_myprint_example :
  forall (U : UnicodeTables) (p : Printer),
    printExpression def_myprint p
      = Ok ("MyPrint = lambda x: builtin__print(x)",
            mkPrinter (usingAssocBuiltin p) true)
    /\ lift (Parse U (enough (runes "Def[MyPrint, Args[x], Print[x]]"))
                   (New (runes "Def[MyPrint, Args[x], Print[x]]")))
       = Ok (BlockStatement [def_myprint]).
Proof.
  intros U p. split; reflexivity.
Qed.

(** ** Malformed input *)

(** C6. On the text made of [Foo] and an open bracket the lexer yields
    the name, the open bracket and then the end of input, and [parseArgs]
    stops the process on it: with any fuel that lets the parser reach
    that point the run is fatal with [io.EOF], and compilation returns no
    output. *)
Theorem unterminated_call_is_fatal :
  forall U : UnicodeTables,
    (forall n, Parse U (3 + n) (New (runes "Foo[")) = Fatal (FatalError EOF))
    /\ compile U (runes "Foo[") = Fatal (FatalError EOF)
    /\ (forall out, compile U (runes "Foo[") <> Ok out).
Proof.
  intros U. repeat split; try reflexivity.
  intros out H. discriminate H.
Qed.

(** ** What the lexer does with a rune it has no rule for *)

Lemma unrecognized_rune_ends_the_stream U r rest rw cl q :
  recognized U r = false ->
  next U (mkLexer rw cl (r :: rest) q) = (endOfStream, mkLexer rw cl rest q).
Proof.
  unfold recognized. cbn [existsb]. intros H.
  repeat match goal with
         | E : (_ || _) = false |- _ => apply orb_false_elim in E; destruct E
         end.
  unfold next. cbn -[IsLetter IsDigit isNewline isBlank Z.eqb].
  repeat match goal with E : _ = false |- _ => rewrite E; clear E end.
  reflexivity.
Qed.

(** C2 (what the code does). A rune without a rule makes [next] return
    exactly what it returns at the end of the input, [UnknownToken] with
    [io.EOF]: the two cannot be told apart, and [Parse] takes the rune for
    the end of the program and drops what follows it. *)
Theorem malformed_rune_reads_as_end_of_input :
  forall U : UnicodeTables,
    fst (next U (New [])) = endOfStream
    /\ fst (next U (New (runes "#"))) = endOfStream
    /\ compile U (runes "F[] # G[]") = Ok "F()"
    /\ compile U (runes "F[]") = Ok "F()".
Proof.
  intros U. repeat split; reflexivity.
Qed.

(** C7 (what the code does). A single slash followed by something else
    than a slash is skipped: the next token is the one after it, without
    an error, and the program compiles as if the slash were not there. *)
Theorem lone_slash_is_skipped :
  forall U : UnicodeTables,
    next U (New (runes "/["))
      = (mkTokenResult (mkToken TokenSquareBracketOpen "[" (mkLocation 0 0 "")) None,
         mkLexer 0 0 [] [])
    /\ (forall rw cl rest q,
          next U (mkLexer rw cl (47 :: 91 :: rest)%Z q)
          = next U (mkLexer rw cl (91 :: rest)%Z q))
    /\ compile U (runes "F/[]") = Ok "F()"
    /\ compile U (runes "F[]") = Ok "F()".
Proof.
  intros U. repeat split; reflexivity.
Qed.

(** ** The token queue *)

Section ParserFacts.

Variable U : UnicodeTables.

Lemma next_keeps_queue l :
  tokenQueue (snd (next U l)) = tokenQueue l.
Proof.
  unfold next. destruct (scan U (source l) _) as [t [[r c] src]]. reflexivity.
Qed.

Lemma fill_appends n : forall l,
  exists extra, tokenQueue (fill U n l) = (tokenQueue l ++ extra)%list.
Proof.
  induction n as [| n IH]; intros l; cbn [fill].
  - exists []. now rewrite app_nil_r.
  - pose proof (next_keeps_queue l) as K. unfold lognext.
    destruct (next U l) as [t l']. cbn [snd] in K.
    destruct (IH (mkLexer (row l') (col l') (source l') (tokenQueue l' ++ [t])%list))
      as [extra IHe].
    rewrite IHe. cbn [tokenQueue]. rewrite K.
    exists (t :: extra). now rewrite <- app_assoc.
Qed.

Lemma Peek_queue count l t l' :
  Peek U count l = Ok (t, l') ->
  exists i extra,
    count = S i /\
    tokenQueue l' = (tokenQueue l ++ extra)%list /\
    nth_error (tokenQueue l') i = Some t.
Proof.
  unfold Peek, queued. intros H.
  destruct count as [| i]; [discriminate |].
  destruct (fill_appends (S i - length (tokenQueue l)) l) as [extra E].
  destruct (nth_error _ i) as [t0 |] eqn:N; [| discriminate].
  injection H as <- <-.
  exists i, extra. auto.
Qed.

Lemma Peek_filled count l t :
  nth_error (tokenQueue l) (pred count) = Some t ->
  count <> 0 ->
  Peek U count l = Ok (t, l).
Proof.
  intros N C. unfold Peek, queued.
  destruct count as [| i]; [congruence |]. cbn [pred] in N.
  assert (L : i < length (tokenQueue l)) by (apply nth_error_Some; congruence).
  replace (S i - length (tokenQueue l)) with 0 by lia.
  cbn [fill]. now rewrite N.
Qed.

Lemma Next_queued l t q :
  tokenQueue l = t :: q ->
  Next U l = Ok (t, mkLexer (row l) (col l) (source l) q).
Proof. intros E. unfold Next. now rewrite E. Qed.

(** [expectToken] consumes the token it finds, of the expected kind or
    not. *)
Lemma expectToken_consumes tokenType l t l' :
  Next U l = Ok (t, l') ->
  tokenType <> TokenUnknown ->
  (Error_ t = None -> Typ (Token_ t) <> TokenUnknown) ->
  exists r, expectToken U tokenType l = Ok (r, l').
Proof.
  intros N K T. unfold expectToken, bind. rewrite N.
  destruct (Error_ t) as [err |]; [eexists; reflexivity |].
  specialize (T eq_refl).
  destruct (TokenType_eqb _ tokenType); [eexists; reflexivity |].
  destruct tokenType; try congruence;
    destruct (Typ (Token_ t)); try congruence; eexists; reflexivity.
Qed.

Lemma expectToken_match tokenType l t l' :
  Next U l = Ok (t, l') ->
  Error_ t = None ->
  Typ (Token_ t) = tokenType ->
  expectToken U tokenType l = Ok (mkTokenResult (Token_ t) None, l').
Proof.
  intros N E T. unfold expectToken, bind. rewrite N, E, T.
  destruct tokenType; reflexivity.
Qed.

End ParserFacts.

(** ** Brackets *)

(** C5. [parseCall] reads a name, takes the next token for the open
    bracket, parses the arguments, takes the next token for the close
    bracket and returns the call: the two tokens are consumed whatever
    their kinds are (a bracket or not, matching or not), and no error
    comes from them. *)
Theorem parseCall_tolerates_brackets :
  forall (U : UnicodeTables) (fuel : nat) (l l1 l2 l3 l4 : Lexer)
         (called open close : TokenResult) (args : list Expression),
    Next U l = Ok (called, l1) ->
    Error_ called = None -> Typ (Token_ called) = TokenName ->
    Next U l1 = Ok (open, l2) ->
    Error_ open = None -> Typ (Token_ open) <> TokenUnknown ->
    parseArgs U fuel l2 = Ok (Value_ args, l3) ->
    Next U l3 = Ok (close, l4) ->
    Error_ close = None -> Typ (Token_ close) <> TokenUnknown ->
    parseCall U (S fuel) l
      = Ok (Value_ (CallExpression args (Value (Token_ called))), l4).
Proof.
  intros U fuel l l1 l2 l3 l4 called open close args
         N0 E0 T0 N1 E1 T1 A N2 E2 T2.
  cbn [parseCall]. unfold bind.
  rewrite (expectToken_match U TokenName l called l1 N0 E0 T0).
  cbn [Error_].
  destruct (expectToken_consumes U TokenSquareBracketOpen l1 open l2 N1)
    as [r1 X1]; [discriminate | auto |].
  rewrite X1, A.
  destruct (expectToken_consumes U TokenSquareBracketClose l3 close l4 N2)
    as [r2 X2]; [discriminate | auto |].
  rewrite X2. reflexivity.
Qed.

Lemma parseCall_tolerates_brackets_witness :
  parseCall latin1Only 4 (New (runes "G,a b "))
  = Ok (Value_ (CallOf "G" [Var "a"]), mkLexer 0 4 (runes " ") []).
Proof.
  apply (parseCall_tolerates_brackets latin1Only 3
           (New (runes "G,a b "))
           (mkLexer 0 1 (runes ",a b ") [])
           (mkLexer 0 1 (runes "a b ") [])
           (mkLexer 0 4 (runes " ") [name_token "b" 3])
           (mkLexer 0 4 (runes " ") [])
           (name_token "G" 0)
           (mkTokenResult (mkToken TokenComma "," (mkLocation 1 0 "")) None)
           (name_token "b" 3)
           [Var "a"]);
    try reflexivity; discriminate.
Defined.

(** ** Assignments *)

(** C8. Where an expression is expected and the next two tokens are a name
    and an equals sign, [parseExpression] consumes both, parses the
    right-hand side as an expression and returns the assignment of it to
    that name (or the failure of the right-hand side): never a reference
    to the name.  The positions of an expression are the arguments of a
    call and the right-hand side of an assignment. *)
Theorem name_equals_is_assignment :
  forall (U : UnicodeTables) (fuel : nat) (l l1 l2 : Lexer) (t1 t2 : TokenResult),
    Peek U 1 l = Ok (t1, l1) ->
    Error_ t1 = None -> Typ (Token_ t1) = TokenName ->
    Peek U 2 l1 = Ok (t2, l2) ->
    Error_ t2 = None -> Typ (Token_ t2) = TokenEquals ->
    exists q,
      tokenQueue l2 = t1 :: t2 :: q
      /\ parseExpression U (S (S fuel)) l =
           (rhs <- parseExpression U fuel ;;
            ret match rhs with
                | Error err => Error err
                | Value_ rhs => Value_ (Assign (Var (Value (Token_ t1))) rhs)
                end)
           (mkLexer (row l2) (col l2) (source l2) q)
      /\ (forall e l',
            parseExpression U (S (S fuel)) l = Ok (Value_ e, l') ->
            exists rhs, e = Assign (Var (Value (Token_ t1))) rhs)
      /\ lift (Parse U (enough (runes "F[a, x = 1, y = z = G[]]"))
                     (New (runes "F[a, x = 1, y = z = G[]]")))
         = Ok (BlockStatement
                 [CallOf "F" [Var "a"; Assign (Var "x") (Num "1");
                              Assign (Var "y") (Assign (Var "z") (CallOf "G" []))]]).
Proof.
  intros U fuel l l1 l2 t1 t2 P1 E1 T1 P2 E2 T2.
  destruct (Peek_queue U _ _ _ _ P1) as (i1 & x1 & C1 & Q1 & N1).
  injection C1 as <-.
  destruct (Peek_queue U _ _ _ _ P2) as (i2 & x2 & C2 & Q2 & N2).
  injection C2 as <-.
  destruct (tokenQueue l1) as [| h1 q1] eqn:Ql1; [discriminate |].
  cbn in N1. injection N1 as ->.
  rewrite Q2 in N2. cbn in Q2, N2.
  destruct (q1 ++ x2)%list as [| h2 q] eqn:Qq; [discriminate |].
  cbn in N2. injection N2 as ->.
  exists q.
  assert (Eq : parseExpression U (S (S fuel)) l =
           (rhs <- parseExpression U fuel ;;
            ret match rhs with
                | Error err => Error err
                | Value_ rhs => Value_ (Assign (Var (Value (Token_ t1))) rhs)
                end)
           (mkLexer (row l2) (col l2) (source l2) q)).
  { cbn [parseExpression]. unfold bind at 1. rewrite P1. rewrite E1, T1.
    cbn [TokenType_eqb]. unfold bind at 1. rewrite P2. rewrite E2, T2.
    cbn [TokenType_eqb]. unfold bind at 1.
    rewrite (Peek_filled U 2 l2 t2) by (rewrite ?Q2; try reflexivity; discriminate).
    rewrite E2, T2. cbn [TokenType_eqb parseAssignment].
    unfold bind at 1.
    rewrite (expectToken_match U TokenName l2 t1 _ (Next_queued U l2 t1 _ Q2) E1 T1).
    cbn [Error_]. unfold bind at 1.
    rewrite (expectToken_match U TokenEquals _ t2 _
               (Next_queued U (mkLexer (row l2) (col l2) (source l2) (t2 :: q))
                            t2 q eq_refl) E2 T2).
    cbn [row col source]. unfold bind.
    destruct (parseExpression U fuel _) as [[[rhs | err] l'] | | |]; reflexivity. }
  repeat split.
  - exact Q2.
  - exact Eq.
  - intros e l' H. rewrite Eq in H. unfold bind, ret in H.
    destruct (parseExpression U fuel _) as [[[rhs | err] l''] | | |];
      try discriminate.
    injection H as <- _. now exists rhs.
Qed.

Lemma name_equals_is_assignment_witness :
  exists q,
    q = [mkTokenResult (mkToken TokenEquals "=" noLocation) None]
    /\ parseExpression latin1Only 3 (New (runes "x = 1 "))
       = Ok (Value_ (Assign (Var "x") (Num "1")), mkLexer 0 4 (runes " ") []).
Proof.
  destruct (name_equals_is_assignment latin1Only 1
              (New (runes "x = 1 "))
              (mkLexer 0 1 (runes " = 1 ") [name_token "x" 0])
              (mkLexer 0 2 (runes " 1 ")
                 [name_token "x" 0;
                  mkTokenResult (mkToken TokenEquals "=" noLocation) None])
              (name_token "x" 0)
              (mkTokenResult (mkToken TokenEquals "=" noLocation) None)
              eq_refl eq_refl eq_refl eq_refl eq_refl eq_refl)
    as (q & Q & Eq & _).
  exists [mkTokenResult (mkToken TokenEquals "=" noLocation) None].
  split; [reflexivity |].
  injection Q as <-. rewrite Eq. reflexivity.
Defined.

(** ** Helper injection *)

Lemma size_arg a args call :
  In a args -> size a < size (CallExpression args call).
Proof.
  intros H.
  assert (L : size a <= list_sum (map size args)).
  { induction args as [| b args IH]; unfold list_sum in *; cbn [In map fold_right] in *.
    - contradiction.
    - destruct H as [-> | H]; [| apply IH in H]; lia. }
  cbn [size]. unfold list_sum in *. lia.
Qed.

Lemma size_rhs lhs rhs : size rhs < size (AssignmentExpression lhs rhs).
Proof. cbn. lia. Qed.

Lemma mapM_tracks l :
  (forall a, In a l -> tracks a) ->
  forall p ss p',
    mapM printExpression l p = Ok (ss, p') ->
    usingAssocBuiltin p' = usingAssocBuiltin p || existsb uses_assoc l.
Proof.
  induction l as [| a l IH]; intros T p ss p' H; cbn in H.
  - injection H as _ <-. cbn. now rewrite orb_false_r.
  - unfold bind in H.
    destruct (printExpression a p) as [[s p1] | | |] eqn:Ea; try discriminate.
    destruct (mapM printExpression l p1) as [[ss' p2] | | |] eqn:El; try discriminate.
    injection H as _ <-.
    apply (T a (or_introl eq_refl)) in Ea.
    apply IH in El; [| intros; apply T; now right].
    rewrite El, Ea. cbn. now rewrite orb_assoc.
Qed.

Lemma asVariable_keeps e p v p' : asVariable e p = Ok (v, p') -> p' = p.
Proof. destruct e; cbn; intros H; try discriminate. now injection H. Qed.

Lemma index_keeps args i p v p' : index args i p = Ok (v, p') -> p' = p.
Proof.
  unfold index. destruct (nth_error args i); cbn; intros H; try discriminate.
  now injection H.
Qed.

Lemma sliceFrom1_keeps args p v p' : sliceFrom1 args p = Ok (v, p') -> p' = p.
Proof. destruct args; cbn; intros H; try discriminate. now injection H. Qed.

Lemma uses_assoc_args subargs call :
  existsb uses_assoc subargs = true ->
  uses_assoc (CallExpression subargs call) = true.
Proof.
  intros H. cbn [uses_assoc]. rewrite H.
  now rewrite orb_true_r.
Qed.

(** Rendering again what was rendered before leaves the flag as it is. *)
Lemma absorbed (f x : bool) : (x = true -> f = true) -> f || x = f.
Proof. destruct f, x; intros H; try reflexivity. symmetry. now apply H. Qed.

Lemma letForm_tracks l :
  (forall a, In a l -> tracks a) ->
  (forall lhs rhs, In (AssignmentExpression lhs rhs) l -> tracks rhs) ->
  forall params p r p',
    (existsb uses_assoc l = true -> usingAssocBuiltin p = true) ->
    letForm printExpression l params p = Ok (r, p') ->
    usingAssocBuiltin p' = usingAssocBuiltin p || bindings uses_assoc l.
Proof.
  induction l as [| a rest IH]; intros T R params p r p' A H; cbn [letForm] in H.
  - discriminate.
  - destruct rest as [| b rest].
    + unfold bind in H.
      destruct (printExpression a p) as [[body p1] | | |] eqn:Ea; try discriminate.
      injection H as _ <-.
      apply (T a (or_introl eq_refl)) in Ea. rewrite Ea.
      cbn [bindings]. rewrite orb_false_r. apply absorbed.
      intros Ua. apply A. cbn [existsb]. now rewrite Ua.
    + unfold bind at 1 in H.
      assert (Step : forall p1 params1,
                 usingAssocBuiltin p1 = usingAssocBuiltin p || rhs_uses uses_assoc a ->
                 letForm printExpression (b :: rest) params1 p1 = Ok (r, p') ->
                 usingAssocBuiltin p' =
                   usingAssocBuiltin p || bindings uses_assoc (a :: b :: rest)).
      { intros p1 params1 F1 G.
        apply IH in G.
        - rewrite G, F1. cbn [bindings]. now rewrite orb_assoc.
        - intros; apply T; now right.
        - intros lhs rhs I; apply (R lhs rhs); now right.
        - intros Ub. rewrite F1. apply orb_true_iff. left. apply A.
          cbn [existsb] in *. rewrite Ub. now rewrite orb_true_r. }
      destruct a as [v | v | subargs call | lhs rhs].
      * cbn in H. apply (Step _ _ (eq_sym (orb_false_r _)) H).
      * cbn in H. apply (Step _ _ (eq_sym (orb_false_r _)) H).
      * cbn in H. apply (Step _ _ (eq_sym (orb_false_r _)) H).
      * unfold bind at 1 in H.
        destruct (asVariable lhs p) as [[v p0] | | |] eqn:Ev; try discriminate.
        apply asVariable_keeps in Ev. subst p0.
        unfold bind at 1 in H.
        destruct (printExpression rhs p) as [[value p1] | | |] eqn:Er; try discriminate.
        apply (R lhs rhs (or_introl eq_refl)) in Er.
        cbn in H. apply (Step _ _ Er H).
Qed.

Lemma defParams_tracks l :
  (forall lhs rhs, In (AssignmentExpression lhs rhs) l -> tracks rhs) ->
  (forall subargs call a,
      In (CallExpression subargs call) l -> In a subargs -> tracks a) ->
  forall params p r p',
    (existsb uses_assoc l = true -> usingAssocBuiltin p = true) ->
    defParams printExpression l params p = Ok (r, p') ->
    usingAssocBuiltin p' = usingAssocBuiltin p || existsb (rhs_uses uses_assoc) l.
Proof.
  induction l as [| arg rest IH]; intros R C params p r p' A H; cbn [defParams] in H.
  - injection H as _ <-. cbn. now rewrite orb_false_r.
  - unfold bind at 1 in H.
    assert (Step : forall p1 params1,
               usingAssocBuiltin p1 = usingAssocBuiltin p || rhs_uses uses_assoc arg ->
               defParams printExpression rest params1 p1 = Ok (r, p') ->
               usingAssocBuiltin p' =
                 usingAssocBuiltin p || existsb (rhs_uses uses_assoc) (arg :: rest)).
    { intros p1 params1 F1 G.
      apply IH in G.
      - rewrite G, F1. cbn [existsb]. now rewrite orb_assoc.
      - intros lhs rhs I; apply (R lhs rhs); now right.
      - intros subargs call a I; apply (C subargs call a); now right.
      - intros Ur. rewrite F1. apply orb_true_iff. left. apply A.
        cbn [existsb]. rewrite Ur. now rewrite orb_true_r. }
    destruct arg as [v | v | subargs call | lhs rhs].
    + cbn in H. apply (Step _ _ (eq_sym (orb_false_r _)) H).
    + cbn in H. apply (Step _ _ (eq_sym (orb_false_r _)) H).
    + destruct (call =? "Args") eqn:CA.
      * unfold bind at 1 in H.
        destruct (mapM printExpression subargs p) as [[subparams p1] | | |] eqn:Em;
          try discriminate.
        apply mapM_tracks in Em;
          [| intros a I; apply (C subargs call a); [now left | exact I]].
        cbn in H. refine (Step _ _ _ H).
        rewrite Em. cbn [rhs_uses]. rewrite orb_false_r. apply absorbed.
        intros Us. apply A. cbn [existsb].
        now rewrite (uses_assoc_args subargs call Us).
      * destruct (call =? "HashMap") eqn:CH.
        -- destruct subargs as [| k [| k' subargs]]; try discriminate.
           destruct k; cbn in H; try discriminate.
           apply (Step _ _ (eq_sym (orb_false_r _)) H).
        -- cbn in H. apply (Step _ _ (eq_sym (orb_false_r _)) H).
    + unfold bind at 1 in H.
      destruct (asVariable lhs p) as [[v p0] | | |] eqn:Ev; try discriminate.
      apply asVariable_keeps in Ev. subst p0.
      unfold bind at 1 in H.
      destruct (printExpression rhs p) as [[value p1] | | |] eqn:Er; try discriminate.
      apply (R lhs rhs (or_introl eq_refl)) in Er.
      cbn in H. apply (Step _ _ Er H).
Qed.

Ltac known_name C :=
  apply String.eqb_eq in C; subst.

Ltac keeps H :=
  repeat match type of H with
         | bind _ _ _ = Ok _ => unfold bind at 1 in H
         | match index ?a ?i ?p with _ => _ end = Ok _ =>
             let E := fresh "E" in
             destruct (index a i p) as [[? ?] | | |] eqn:E; try discriminate H;
             apply index_keeps in E; subst
         | match sliceFrom1 ?a ?p with _ => _ end = Ok _ =>
             let E := fresh "E" in
             destruct (sliceFrom1 a p) as [[? ?] | | |] eqn:E; try discriminate H;
             apply sliceFrom1_keeps in E; subst
         | match asVariable ?a ?p with _ => _ end = Ok _ =>
             let E := fresh "E" in
             destruct (asVariable a p) as [[? ?] | | |] eqn:E; try discriminate H;
             apply asVariable_keeps in E; subst
         end.

Lemma printExpression_tracks n : forall e, size e < n -> tracks e.
Proof.
  induction n as [| n IHn]; intros e Hs; [lia |].
  destruct e as [v | v | args call | lhs rhs];
    try (intros p s p' H; cbn in H; injection H as _ <-; cbn;
         now rewrite orb_false_r).
  assert (Sub : forall x, size x < size (CallExpression args call) -> tracks x)
    by (intros x Hx; apply IHn; lia).
  assert (Targs : forall a, In a args -> tracks a)
    by (intros a I; apply Sub, size_arg, I).
  intros p s p' H. cbn [printExpression] in H. unfold bind at 1 in H.
  destruct (mapM printExpression args p) as [[rendered p1] | | |] eqn:Em;
    try discriminate.
  apply mapM_tracks in Em; [| exact Targs].
  cbn [uses_assoc]. unfold assoc_form.
  destruct (call =? "Print") eqn:K1.
  { known_name K1. cbn in H. injection H as _ <-. cbn. rewrite Em.
    now rewrite orb_false_r. }
  destruct (call =? "Let") eqn:K2.
  { known_name K2. unfold bind at 1 in H.
    destruct (letForm printExpression args [] p1) as [[r p2] | | |] eqn:El;
      try discriminate.
    cbn in H. injection H as _ <-.
    apply letForm_tracks in El.
    - rewrite El, Em. cbn. now rewrite orb_assoc.
    - exact Targs.
    - intros lhs rhs I. apply Sub.
      pose proof (size_arg _ _ "Let" I). pose proof (size_rhs lhs rhs). lia.
    - intros Ua. rewrite Em, Ua. apply orb_true_r. }
  destruct (call =? "HashMap") eqn:K3.
  { known_name K3. cbn in H. injection H as _ <-. cbn. rewrite Em.
    now rewrite orb_false_r. }
  destruct (call =? "Map") eqn:K4.
  { known_name K4. keeps H. cbn in H. injection H as _ <-. cbn. rewrite Em.
    now rewrite orb_false_r. }
  destruct (call =? "List") eqn:K5.
  { known_name K5. cbn in H. injection H as _ <-. cbn. rewrite Em.
    now rewrite orb_false_r. }
  destruct (call =? "Call") eqn:K6.
  { known_name K6. keeps H. cbn in H. injection H as _ <-. cbn. rewrite Em.
    now rewrite orb_false_r. }
  destruct (call =? "Assoc") eqn:K7.
  { unfold bind at 1 in H. cbn [setAssoc] in H. keeps H.
    cbn in H. injection H as _ <-. cbn. now rewrite orb_true_r. }
  destruct (call =? "Has") eqn:K8.
  { unfold bind at 1 in H. cbn [setAssoc] in H. keeps H.
    cbn in H. injection H as _ <-. cbn. now rewrite orb_true_r. }
  destruct (call =? "Get") eqn:K9.
  { unfold bind at 1 in H. cbn [setAssoc] in H. keeps H.
    cbn in H. injection H as _ <-. cbn. now rewrite orb_true_r. }
  destruct (call =? "Cond") eqn:K10.
  { known_name K10.
    destruct args as [| c [| t rest]]; try discriminate.
    unfold bind at 1 in H.
    destruct (printExpression t p1) as [[st p2] | | |] eqn:Et; try discriminate.
    unfold bind at 1 in H.
    destruct (printExpression c p2) as [[sc p3] | | |] eqn:Ec; try discriminate.
    destruct rest as [| f rest]; try discriminate.
    unfold bind at 1 in H.
    destruct (printExpression f p3) as [[sf p4] | | |] eqn:Ef; try discriminate.
    cbn in H. injection H as _ <-.
    apply Targs in Et; [| cbn; auto].
    apply Targs in Ec; [| cbn; auto].
    apply Targs in Ef; [| cbn; auto].
    rewrite Ef, Ec, Et, Em. cbn.
    destruct (usingAssocBuiltin p), (uses_assoc c), (uses_assoc t),
      (uses_assoc f), (existsb uses_assoc rest); reflexivity. }
  destruct (call =? "Def") eqn:K11.
  { known_name K11. cbn [orb].
    assert (Generic : forall q, ret (A := string) q p1 = Ok (s, p') ->
              usingAssocBuiltin p' = usingAssocBuiltin p1).
    { intros q G. now injection G as _ <-. }
    destruct args as [| a0 rest0]; [discriminate |].
    destruct a0 as [defname | v | subargs subcall | lhs rhs].
    - destruct rest0 as [| a1 [| a2 rest]];
        try (rewrite (Generic _ H), Em; try destruct a1;
             now rewrite !orb_false_r).
      unfold bind at 1 in H.
      assert (Body : forall params p2,
                (uses_assoc a2 = true -> usingAssocBuiltin p2 = true) ->
                (body <- printExpression a2 ;;
                 ret (defname ++ " = lambda " ++ Join params ", " ++ ": " ++ body)) p2
                = Ok (s, p') ->
                usingAssocBuiltin p' = usingAssocBuiltin p2).
      { intros params p2 F2 G. unfold bind in G.
        destruct (printExpression a2 p2) as [[body p3] | | |] eqn:Eb;
          try discriminate.
        cbn in G. injection G as _ <-.
        apply Targs in Eb; [| cbn; auto].
        rewrite Eb. now apply absorbed. }
      assert (Seen : uses_assoc a2 = true -> usingAssocBuiltin p1 = true).
      { intros U2. rewrite Em. cbn [existsb]. rewrite U2.
        now rewrite !orb_true_r. }
      destruct a1 as [v1 | v1 | pargs pcall | lhs1 rhs1];
        try (change (ret (S := Printer) (@nil string) p1)
               with (Ok (@nil string, p1)) in H;
             cbv beta iota in H;
             rewrite (Body _ _ Seen H), Em;
             now rewrite !orb_false_r).
      destruct (pcall =? "Args") eqn:CA.
      + destruct (defParams printExpression pargs [] p1) as [[params p2] | | |] eqn:Ed;
          try discriminate.
        apply defParams_tracks in Ed.
        * rewrite (Body _ _ (fun U2 => eq_trans Ed
                     (eq_trans (f_equal (fun b => b || _) (Seen U2)) eq_refl)) H).
          rewrite Ed, Em. cbn [andb]. now rewrite orb_assoc.
        * intros lhs rhs I. apply Sub.
          pose proof (size_arg _ _ pcall I).
          pose proof (size_arg (CallExpression pargs pcall)
                        (VariableReferenceExpression defname
                         :: CallExpression pargs pcall :: a2 :: rest) "Def").
          pose proof (size_rhs lhs rhs). cbn [In] in *. intuition lia.
        * intros subargs subcall a I J. apply Sub.
          pose proof (size_arg _ _ pcall I).
          pose proof (size_arg _ _ subcall J).
          pose proof (size_arg (CallExpression pargs pcall)
                        (VariableReferenceExpression defname
                         :: CallExpression pargs pcall :: a2 :: rest) "Def").
          cbn [In] in *. intuition lia.
        * intros Up. rewrite Em. cbn [existsb].
          rewrite (uses_assoc_args pargs pcall Up).
          now rewrite !orb_true_r.
      + change (ret (S := Printer) (@nil string) p1)
          with (Ok (@nil string, p1)) in H.
        cbv beta iota in H.
        rewrite (Body _ _ Seen H), Em. cbn [andb].
        now rewrite !orb_false_r.
    - rewrite (Generic _ H), Em. now rewrite !orb_false_r.
    - rewrite (Generic _ H), Em. now rewrite !orb_false_r.
    - keeps H.
      destruct (printExpression rhs p1) as [[value p2] | | |] eqn:Er;
        try discriminate.
      cbn in H. injection H as _ <-.
      apply Sub in Er.
      + rewrite Er, Em. now rewrite orb_assoc.
      + pose proof (size_arg (AssignmentExpression lhs rhs)
                      (AssignmentExpression lhs rhs :: rest0) "Def").
        pose proof (size_rhs lhs rhs). cbn [In] in *. intuition lia. }
  cbn [orb].
  destruct (call =? "Inc") eqn:K12;
    cbn in H; injection H as _ <-; rewrite Em; now rewrite orb_false_r.
Qed.

Lemma printStatement_tracks ast p main p' :
  printStatement ast p = Ok (main, p') ->
  usingAssocBuiltin p' = usingAssocBuiltin p || block_uses_assoc ast.
Proof.
  destruct ast as [es]. cbn [printStatement block_uses_assoc]. unfold bind.
  destruct (mapM printExpression es p) as [[expressions p1] | | |] eqn:Em;
    try discriminate.
  intros H. injection H as _ <-.
  apply mapM_tracks in Em; [exact Em |].
  intros a _. apply (printExpression_tracks (S (size a))). lia.
Qed.

(** C3. In the output of a program, the main block is preceded by the
    assoc helper and a newline when the rendering uses [Assoc], [Has] or
    [Get], however often, and is not when it uses none; before that
    comes the print helper when it is used.  The helper is never added
    anywhere else. *)
Theorem assoc_helper_injected_once :
  forall (ast : Statement) (out : string),
    PrintPython ast = Ok out ->
    exists main p',
      printStatement ast (mkPrinter false false) = Ok (main, p')
      /\ usingAssocBuiltin p' = block_uses_assoc ast
      /\ out = prepend (usingPrintBuiltin p') printPrintBuiltin
                 (prepend (block_uses_assoc ast) printAssocBuiltin main).
Proof.
  intros ast out H. unfold PrintPython, String_, bind in H.
  destruct (printStatement ast (mkPrinter false false)) as [[main p'] | | |] eqn:E;
    try discriminate.
  exists main, p'. split; [reflexivity |].
  apply printStatement_tracks in E. cbn in E.
  split; [exact E |].
  cbn [lift] in H. injection H as <-. rewrite E. reflexivity.
Qed.

Lemma assoc_helper_injected_once_witness :
  block_uses_assoc cache_program = true
  /\ exists main p',
       printStatement cache_program (mkPrinter false false) = Ok (main, p')
       /\ usingAssocBuiltin p' = block_uses_assoc cache_program
       /\ printPrintBuiltin ++ nl ++ printAssocBuiltin ++ nl ++ cache_main
          = prepend (usingPrintBuiltin p') printPrintBuiltin
              (prepend (block_uses_assoc cache_program) printAssocBuiltin main).
Proof.
  split; [reflexivity |].
  apply (assoc_helper_injected_once cache_program
           (printPrintBuiltin ++ nl ++ printAssocBuiltin ++ nl ++ cache_main)).
  reflexivity.
Defined.

(** The helper follows what is rendered: an [Assoc] under an assignment
    that no rule reads is not rendered and brings no helper, one under a
    binding of [Let] is and does. *)
Lemma helper_follows_rendering :
  PrintPython
    (BlockStatement
       [CallOf "F" [Assign (Var "x") (CallOf "Assoc" [Var "k"; Var "v"; Var "m"])]])
  = Ok "F(<unknown>)"
  /\ PrintPython
       (BlockStatement
          [CallOf "Let" [Assign (Var "x") (CallOf "Get" [Var "k"; Var "m"]); Var "x"]])
     = Ok (printAssocBuiltin ++ nl ++ "lambda x = (m.get(k)): x").
Proof. split; reflexivity. Qed.

(** A program of generic calls comes out as its transliteration. *)
Lemma generic_program_example (U : UnicodeTables) :
  compile U (runes "F[G[1, a], 2] H[]") = Ok ("F(G(1,a),2)" ++ nl ++ "H()").
Proof. reflexivity. Qed.

(** ** Termination of the parser *)

Lemma afterLine_length src : length (afterLine src) <= length src.
Proof.
  induction src as [| r rest IH]; cbn [afterLine length].
  - lia.
  - destruct (r =? 10)%Z; lia.
Qed.

Section Progress.

Variable U : UnicodeTables.

Lemma scan_shorter n :
  forall src s t r c src',
    length src <= n ->
    scan U src s = (t, (r, c, src')) ->
    length src' <= length src.
Proof.
  induction n as [| n IH]; intros src s t r c src' L H.
  - destruct src; [| cbn in L; lia].
    cbn in H. injection H as _ _ _ <-. cbn. lia.
  - destruct src as [| x rest].
    + cbn in H. injection H as _ _ _ <-. cbn. lia.
    + cbn [length] in L |- *. cbn [scan] in H.
      pose proof (afterLine_length rest) as AL.
      repeat match type of H with
             | (if ?b then _ else _) = _ => destruct b
             | scan U _ _ = _ => apply IH in H; [lia | lia]
             | lexed _ _ _ _ _ = _ =>
                 unfold lexed in H; injection H as _ _ _ <-; cbn [length]; lia
             end.
Qed.

Lemma scan_progress src s t r c src' :
  scan U src s = (t, (r, c, src')) ->
  Error_ t = None ->
  searchName s = false ->
  searchNumber s = false ->
  length src' < length src.
Proof.
  intros H E N1 N2.
  destruct src as [| x rest].
  - cbn in H. injection H as <- _ _ _. discriminate.
  - cbn [scan] in H. rewrite N1, N2 in H. cbn [length].
    pose proof (afterLine_length rest) as AL.
    repeat match type of H with
           | (if ?b then _ else _) = _ => destruct b
           | scan U _ _ = _ => apply (scan_shorter _ _ _ _ _ _ _ (le_n _)) in H; lia
           | lexed _ _ _ _ _ = _ =>
               unfold lexed in H; injection H as <- _ _ <-;
               first [discriminate E | cbn [length]; lia]
           end.
Qed.

Lemma next_pending l t l' :
  next U l = (t, l') ->
  tokenQueue l' = tokenQueue l
  /\ length (source l') <= length (source l)
  /\ (Error_ t = None -> length (source l') < length (source l)).
Proof.
  unfold next.
  destruct (scan U (source l) _) as [t0 [[r c] src]] eqn:E.
  intros H. injection H as <- <-. cbn [tokenQueue source].
  split; [reflexivity |]. split.
  - apply (scan_shorter _ _ _ _ _ _ _ (le_n _) E).
  - intros Et. apply (scan_progress _ _ _ _ _ _ E Et); reflexivity.
Qed.

End Progress.

Section Pending.

Variable U : UnicodeTables.

Lemma filter_ok_app q t :
  length (filter ok (q ++ [t])%list)
  = length (filter ok q) + (if ok t then 1 else 0).
Proof.
  rewrite filter_app, length_app. cbn [filter].
  destruct (ok t); reflexivity.
Qed.

Lemma fill_pending n : forall l,
  pending (fill U n l) <= pending l
  /\ (headOk l -> headOk (fill U n l)).
Proof.
  induction n as [| n IH]; intros l; cbn [fill].
  - split; [lia | auto].
  - unfold lognext. destruct (next U l) as [t l1] eqn:E.
    apply next_pending in E. destruct E as (Q & L & S).
    destruct (IH (mkLexer (row l1) (col l1) (source l1) (tokenQueue l1 ++ [t])%list))
      as [IHp IHh].
    split.
    + eapply Nat.le_trans; [exact IHp |].
      unfold pending. cbn [source tokenQueue]. rewrite filter_ok_app, Q.
      destruct (Error_ t) as [err |] eqn:Et.
      * replace (ok t) with false by (unfold ok; now rewrite Et). lia.
      * specialize (S eq_refl). destruct (ok t); lia.
    + intros H. apply IHh. unfold headOk in *. cbn [tokenQueue]. rewrite Q.
      destruct (tokenQueue l); [contradiction | exact H].
Qed.

Lemma Peek_pending count l t l' :
  Peek U count l = Ok (t, l') ->
  pending l' <= pending l
  /\ (headOk l -> headOk l')
  /\ (count = 1 -> Error_ t = None -> headOk l').
Proof.
  unfold Peek, queued. intros H.
  destruct count as [| i]; [discriminate |].
  destruct (fill_pending (S i - length (tokenQueue l)) l) as [Fp Fh].
  remember (fill U (S i - length (tokenQueue l)) l) as l2 eqn:L2.
  destruct (nth_error (tokenQueue l2) i) as [t0 |] eqn:N; [| discriminate].
  injection H as <- <-.
  repeat split; auto.
  intros C E. injection C as ->. unfold headOk.
  destruct (tokenQueue l2); [discriminate |].
  cbn in N. now injection N as ->.
Qed.

Lemma MustPeek_pending count l t l' :
  MustPeek U count l = Ok (t, l') -> pending l' <= pending l.
Proof.
  unfold MustPeek, bind.
  destruct (Peek U count l) as [[r l1] | | |] eqn:E; try discriminate.
  apply Peek_pending in E. destruct E as [Ep _].
  destruct (Error_ r); cbn; intros H; [discriminate |].
  now injection H as _ <-.
Qed.

Lemma Consume_pending l u l' :
  Consume l = Ok (u, l') ->
  headOk l ->
  S (pending l') = pending l.
Proof.
  unfold Consume, headOk, pending.
  destruct (tokenQueue l) as [| t q]; [discriminate |].
  intros H E. injection H as _ <-. cbn [source tokenQueue filter].
  replace (ok t) with true by (unfold ok; now rewrite E).
  cbn [length]. lia.
Qed.

Lemma Next_pending l t l' :
  Next U l = Ok (t, l') ->
  pending l' <= pending l
  /\ (Error_ t = None -> pending l' < pending l).
Proof.
  unfold Next, pending.
  destruct (tokenQueue l) as [| t0 q] eqn:Q.
  - unfold lognext. destruct (next U l) as [t1 l1] eqn:E.
    intros H. injection H as <- <-.
    apply next_pending in E. destruct E as (Q1 & L & S).
    rewrite Q1, Q. cbn [filter length]. split; [lia |].
    intros Et. specialize (S Et). lia.
  - intros H. injection H as <- <-. cbn [source tokenQueue filter].
    destruct (Error_ t0) as [err |] eqn:Et.
    + replace (ok t0) with false by (unfold ok; now rewrite Et).
      split; [lia | discriminate].
    + replace (ok t0) with true by (unfold ok; now rewrite Et).
      cbn [length]. split; lia.
Qed.

Lemma expectToken_pending tokenType l r l' :
  expectToken U tokenType l = Ok (r, l') ->
  pending l' <= pending l
  /\ (Error_ r = None -> pending l' < pending l).
Proof.
  unfold expectToken, bind.
  destruct (Next U l) as [[t l1] | | |] eqn:E; try discriminate.
  apply Next_pending in E. destruct E as [Le Lt].
  destruct (Error_ t) as [err |] eqn:Et.
  - cbn. intros H. injection H as <- <-. split; [lia | discriminate].
  - specialize (Lt eq_refl).
    destruct (TokenType_eqb _ _).
    + cbn. intros H. injection H as <- <-. split; lia.
    + destruct tokenType; cbn; try discriminate;
        destruct (Typ (Token_ t)); cbn; try discriminate;
        intros H; injection H as <- <-; split; try lia; discriminate.
Qed.

End Pending.

(** One step of a sequence that ended well. *)
Ltac step H :=
  unfold bind at 1 in H;
  match type of H with
  | match ?m ?l with _ => _ end = _ =>
      let E := fresh "E" in
      destruct (m l) as [[? ?] | | |] eqn:E; try discriminate H
  end.

Ltac returned H :=
  cbn [ret] in H; unfold ret in H;
  first [discriminate H | injection H as ? ?; subst].

Ltac measure :=
  repeat match goal with
         | E : expectToken _ _ _ = Ok _ |- _ =>
             apply expectToken_pending in E; destruct E
         | E : Peek _ _ _ = Ok _ |- _ =>
             apply Peek_pending in E; destruct E as (? & ? & ?)
         | E : MustPeek _ _ _ = Ok _ |- _ => apply MustPeek_pending in E
         | E : Next _ _ = Ok _ |- _ =>
             apply Next_pending in E; destruct E
         end.

Section Termination.

Variable U : UnicodeTables.

Lemma parse_consumes n :
  (forall l e l', parseCall U n l = Ok (Value_ e, l') -> pending l' < pending l)
  /\ (forall l e l', parseAssignment U n l = Ok (Value_ e, l') -> pending l' < pending l)
  /\ (forall l e l', parseExpression U n l = Ok (Value_ e, l') -> pending l' < pending l)
  /\ (forall l es l', parseArgs U n l = Ok (Value_ es, l') -> pending l' <= pending l)
  /\ (forall args l es l',
         parseArgsLoop U n args l = Ok (Value_ es, l') -> pending l' <= pending l).
Proof.
  induction n as [| n (IHc & IHa & IHe & IHs & IHl)].
  - repeat split; intros; discriminate.
  - repeat split.
    + intros l e l' H. cbn [parseCall] in H.
      step H. destruct (Error_ t) eqn:Et; [returned H |].
      step H. step H. destruct o as [args | err]; [| returned H].
      step H. returned H.
      apply IHs in E1. measure. intuition lia.
    + intros l e l' H. cbn [parseAssignment] in H.
      step H. destruct (Error_ t) eqn:Et; [returned H |].
      step H. step H. destruct o as [rhs | err]; [| returned H].
      returned H.
      apply IHe in E1. measure. intuition lia.
    + intros l e l' H. cbn [parseExpression] in H.
      step H. destruct (Error_ t) eqn:Et; [returned H |].
      destruct (TokenType_eqb (Typ (Token_ t)) TokenName).
      * step H. destruct (match Error_ t0 with None => _ | Some _ => _ end).
        -- apply IHc in H. measure. lia.
        -- step H.
           destruct (match Error_ t1 with None => _ | Some _ => _ end).
           ++ apply IHa in H. measure. lia.
           ++ step H. returned H.
              apply Consume_pending in E2; measure; intuition lia.
      * destruct (TokenType_eqb (Typ (Token_ t)) TokenNumber); [| returned H].
        step H. returned H.
        apply Consume_pending in E0; measure; intuition lia.
    + intros l es l' H. cbn [parseArgs] in H.
      step H. destruct (negb _); [| returned H; measure; lia].
      step H. destruct o as [e | err]; [| returned H].
      apply IHl in H. apply IHe in E0. measure. lia.
    + intros args l es l' H. cbn [parseArgsLoop] in H.
      step H. destruct (Error_ t) eqn:Et; [returned H |].
      destruct (TokenType_eqb _ _); [| returned H; measure; lia].
      step H. step H. destruct o as [e | err]; [| returned H].
      apply IHl in H. apply IHe in E1.
      apply Consume_pending in E0; measure; intuition lia.
Qed.

Lemma expectToken_returns tokenType l : expectToken U tokenType l <> OutOfFuel.
Proof.
  unfold expectToken, bind, Next.
  destruct (tokenQueue l); [destruct (lognext U l) |];
    (destruct (Error_ _); [discriminate |]);
    (destruct (TokenType_eqb _ _); [discriminate |]);
    destruct tokenType; try discriminate;
    destruct (Typ (Token_ _)); discriminate.
Qed.

Lemma Peek_returns count l : Peek U count l <> OutOfFuel.
Proof.
  unfold Peek, queued. destruct count; [discriminate |].
  destruct (nth_error _ _); discriminate.
Qed.

Lemma MustPeek_returns count l : MustPeek U count l <> OutOfFuel.
Proof.
  unfold MustPeek, bind. pose proof (Peek_returns count l).
  destruct (Peek U count l) as [[t l'] | | |]; try discriminate; try congruence.
  destruct (Error_ t); discriminate.
Qed.

Lemma Consume_returns l : Consume l <> OutOfFuel.
Proof. unfold Consume. destruct (tokenQueue l); discriminate. Qed.

(** One step of a sequence that ran out of fuel: the step itself did
    not. *)
Ltac fuel H :=
  unfold bind at 1 in H;
  match type of H with
  | match ?m ?l with _ => _ end = _ =>
      let E := fresh "E" in
      destruct (m l) as [[? ?] | | |] eqn:E;
      [ | discriminate H | discriminate H
        | exfalso; revert E;
          first [ apply expectToken_returns | apply Peek_returns
                | apply MustPeek_returns | apply Consume_returns | idtac ] ]
  end.

Lemma parse_fuel n :
  (forall l, 3 * pending l + 2 <= n -> parseCall U n l <> OutOfFuel)
  /\ (forall l, 3 * pending l + 2 <= n -> parseAssignment U n l <> OutOfFuel)
  /\ (forall l, 3 * pending l + 3 <= n -> parseExpression U n l <> OutOfFuel)
  /\ (forall l, 3 * pending l + 4 <= n -> parseArgs U n l <> OutOfFuel)
  /\ (forall args l,
         3 * pending l + 1 <= n -> parseArgsLoop U n args l <> OutOfFuel).
Proof.
  induction n as [| n (IHc & IHa & IHe & IHs & IHl)].
  - repeat split; intros; lia.
  - destruct (parse_consumes n) as (Cc & Ca & Ce & Cs & Cl).
    repeat split.
    + intros l B H. cbn [parseCall] in H.
      fuel H. destruct (Error_ t) eqn:Et; [discriminate H |].
      fuel H. fuel H.
      * destruct o as [args | err]; [| discriminate H].
        fuel H. discriminate H.
      * apply IHs. measure. intuition lia.
    + intros l B H. cbn [parseAssignment] in H.
      fuel H. destruct (Error_ t) eqn:Et; [discriminate H |].
      fuel H. fuel H.
      * destruct o as [rhs | err]; discriminate H.
      * apply IHe. measure. intuition lia.
    + intros l B H. cbn [parseExpression] in H.
      fuel H. destruct (Error_ t) eqn:Et; [discriminate H |].
      destruct (TokenType_eqb (Typ (Token_ t)) TokenName).
      * fuel H. destruct (match Error_ t0 with None => _ | Some _ => _ end).
        -- revert H. apply IHc. measure. lia.
        -- fuel H.
           destruct (match Error_ t1 with None => _ | Some _ => _ end).
           ++ revert H. apply IHa. measure. lia.
           ++ fuel H. discriminate H.
      * destruct (TokenType_eqb (Typ (Token_ t)) TokenNumber); [| discriminate H].
        fuel H. discriminate H.
    + intros l B H. cbn [parseArgs] in H.
      fuel H. destruct (negb _); [| discriminate H].
      fuel H.
      * destruct o as [e | err]; [| discriminate H].
        revert H. apply IHl. apply Ce in E0. measure. lia.
      * apply IHe. measure. lia.
    + intros args l B H. cbn [parseArgsLoop] in H.
      fuel H. destruct (Error_ t) eqn:Et; [discriminate H |].
      destruct (TokenType_eqb _ _); [| discriminate H].
      fuel H. fuel H.
      * destruct o as [e | err]; [| discriminate H].
        revert H. apply IHl. apply Ce in E1.
        apply Consume_pending in E0; measure; intuition lia.
      * apply IHe. apply Consume_pending in E0; measure; intuition lia.
Qed.

Lemma parseBlock_fuel n : forall expressions l,
  3 * pending l + 3 <= n -> parseBlock U n expressions l <> OutOfFuel.
Proof.
  induction n as [| n IH]; intros expressions l B H; [lia |].
  cbn [parseBlock] in H.
  destruct (parse_fuel n) as (Fc & _).
  destruct (parse_consumes n) as (Cc & _).
  fuel H.
  - destruct o as [e | err].
    + revert H. apply IH. apply Cc in E. lia.
    + destruct err; discriminate H.
  - apply Fc. lia.
Qed.

(** With the fuel of [compile], [Parse] runs to its end on every text. *)
Lemma Parse_terminates src : Parse U (enough src) (New src) <> OutOfFuel.
Proof.
  apply parseBlock_fuel. unfold enough, pending, New. cbn. lia.
Qed.

End Termination.

(** ** More fuel does not change a result *)

Lemma settled_refl {A} (r : result A) : settled r r.
Proof. now right. Qed.

Lemma bind_settled {S A B} (m1 m2 : M S A) (k1 k2 : A -> M S B) s :
  settled (m1 s) (m2 s) ->
  (forall a s', settled (k1 a s') (k2 a s')) ->
  settled (bind m1 k1 s) (bind m2 k2 s).
Proof.
  unfold bind. intros [E | E] K; rewrite E.
  - now left.
  - destruct (m2 s) as [[a s'] | | |]; try apply settled_refl. apply K.
Qed.

Ltac settle :=
  repeat first
    [ apply settled_refl
    | assumption
    | match goal with
      | IH : forall l, settled (?f l) _ |- settled (?f _) _ => apply IH
      | IH : forall a l, settled (?f a l) _ |- settled (?f _ _) _ => apply IH
      | |- settled (bind _ _ _) (bind _ _ _) =>
          apply bind_settled; [| intros ? ?]
      | |- settled (match ?x with _ => _ end _) _ => destruct x
      | |- settled ((if ?x then _ else _) _) _ => destruct x
      end ].

Section Fuel.

Variable U : UnicodeTables.

Lemma parse_settled n :
  (forall l, settled (parseCall U n l) (parseCall U (S n) l))
  /\ (forall l, settled (parseAssignment U n l) (parseAssignment U (S n) l))
  /\ (forall l, settled (parseExpression U n l) (parseExpression U (S n) l))
  /\ (forall l, settled (parseArgs U n l) (parseArgs U (S n) l))
  /\ (forall args l,
         settled (parseArgsLoop U n args l) (parseArgsLoop U (S n) args l)).
Proof.
  induction n as [| n (IHc & IHa & IHe & IHs & IHl)].
  - repeat split; intros; now left.
  - repeat split; intros.
    + change (settled (parseCall U (S n) l) (parseCall U (S (S n)) l)).
      cbn [parseCall]. settle.
    + cbn [parseAssignment]. settle.
    + cbn [parseExpression]. settle.
    + cbn [parseArgs]. settle.
    + cbn [parseArgsLoop]. settle.
Qed.

Lemma parseBlock_settled n : forall expressions l,
  settled (parseBlock U n expressions l) (parseBlock U (S n) expressions l).
Proof.
  induction n as [| n IH]; intros expressions l; [now left |].
  destruct (parse_settled n) as (Sc & _).
  cbn [parseBlock]. settle.
Qed.

Lemma Parse_settled n k l :
  Parse U n l <> OutOfFuel -> Parse U (n + k) l = Parse U n l.
Proof.
  intros H. induction k as [| k IH].
  - now rewrite Nat.add_0_r.
  - rewrite Nat.add_succ_r.
    destruct (parseBlock_settled (n + k) [] l) as [E | E];
      fold (Parse U (n + k) l) in E; fold (Parse U (S (n + k)) l) in E.
    + congruence.
    + congruence.
Qed.

End Fuel.

(** * More of the lexer *)

Lemma afterLine_suffix src : exists line, src = (line ++ afterLine src)%list.
Proof.
  induction src as [| r rest [line IH]]; cbn [afterLine].
  - now exists [].
  - destruct (r =? 10)%Z.
    + now exists [r].
    + exists (r :: line). cbn. now rewrite <- IH.
Qed.

Section LexerFacts.

Variable U : UnicodeTables.

Lemma scan_kinds n :
  forall src s t rest,
    length src <= n ->
    scan U src s = (t, rest) ->
    (Error_ t = None /\ producible (Typ (Token_ t)) = true) \/ t = endOfStream.
Proof.
  induction n as [| n IH]; intros src s t rest L H.
  - destruct src; [| cbn in L; lia].
    cbn in H. injection H as <- _. now right.
  - destruct src as [| x src].
    + cbn in H. injection H as <- _. now right.
    + cbn [length] in L. cbn [scan] in H.
      pose proof (afterLine_length src) as AL.
      repeat match type of H with
             | (if ?b then _ else _) = _ => destruct b
             | scan U _ _ = _ => apply IH in H; [exact H | lia]
             | lexed _ _ _ _ _ = _ =>
                 unfold lexed in H; injection H as <- _;
                 first [now right | now left]
             end.
Qed.

Lemma scan_suffix n :
  forall src s t r c src',
    length src <= n ->
    scan U src s = (t, (r, c, src')) ->
    exists consumed, src = (consumed ++ src')%list.
Proof.
  induction n as [| n IH]; intros src s t r c src' L H.
  - destruct src; [| cbn in L; lia].
    cbn in H. injection H as _ _ _ <-. now exists [].
  - destruct src as [| x src].
    + cbn in H. injection H as _ _ _ <-. now exists [].
    + cbn [length] in L. cbn [scan] in H.
      pose proof (afterLine_length src) as AL.
      destruct (afterLine_suffix src) as [line Eline].
      repeat match type of H with
             | (if ?b then _ else _) = _ => destruct b
             | scan U (afterLine src) _ = _ =>
                 apply IH in H; [| lia]; destruct H as [consumed H];
                 exists (x :: line ++ consumed)%list;
                 cbn; rewrite <- app_assoc, <- H, <- Eline; reflexivity
             | scan U src _ = _ =>
                 apply IH in H; [| lia]; destruct H as [consumed H];
                 exists (x :: consumed); cbn; now rewrite <- H
             | lexed _ _ _ _ (x :: src) = _ =>
                 unfold lexed in H; injection H as _ _ _ <-; now exists []
             | lexed _ _ _ _ src = _ =>
                 unfold lexed in H; injection H as _ _ _ <-; now exists [x]
             | lexed _ _ _ _ [] = _ =>
                 unfold lexed in H; injection H as _ _ _ <-;
                 exists (x :: src); now rewrite app_nil_r
             end.
Qed.

(** X1. Whatever the source, [next] returns either a token of one of the
    six kinds it has a rule for, without an error, or [UnknownToken] with
    [io.EOF]: it never yields a slash token, an unknown token without an
    error, or another error. *)
Theorem next_token_or_end_of_stream :
  forall l : Lexer,
    (Error_ (fst (next U l)) = None
     /\ producible (Typ (Token_ (fst (next U l)))) = true)
    \/ fst (next U l) = endOfStream.
Proof.
  intros l. unfold next.
  destruct (scan U (source l) _) as [t [[r c] src]] eqn:E.
  cbn [fst]. apply (scan_kinds _ _ _ _ _ (le_n _) E).
Qed.

(** X2. [next] only moves forward: what it leaves of the source is a
    suffix of what it found, the queue is untouched, and a token is
    never returned without at least one rune being read. *)
Theorem next_moves_forward :
  forall l : Lexer,
    tokenQueue (snd (next U l)) = tokenQueue l
    /\ exists consumed,
         source l = (consumed ++ source (snd (next U l)))%list
         /\ (Error_ (fst (next U l)) = None -> consumed <> []).
Proof.
  intros l. split; [apply next_keeps_queue |].
  destruct (next U l) as [t l'] eqn:N. cbn [fst snd].
  pose proof (next_pending U l t l' N) as (_ & _ & Lt).
  unfold next in N.
  destruct (scan U (source l) _) as [t0 [[r c] src]] eqn:E.
  injection N as <- <-. cbn [source] in *.
  destruct (scan_suffix _ _ _ _ _ _ _ (le_n _) E) as [consumed C].
  exists consumed. split; [exact C |].
  intros Et ->. specialize (Lt Et). rewrite C in Lt. cbn in Lt. lia.
Qed.

End LexerFacts.

Section TokenShape.

Variable U : UnicodeTables.

Lemma identifier_snoc ns r :
  identifier U ns = true -> alnum U r = true -> identifier U (ns ++ [r]) = true.
Proof.
  destruct ns as [| x ns]; [discriminate |]. cbn [identifier app].
  intros H A. apply andb_prop in H. destruct H as [H1 H2].
  rewrite H1, forallb_app, H2. cbn. now rewrite A.
Qed.

Lemma digits_snoc ns r :
  digits U ns = true -> IsDigit U r = true -> digits U (ns ++ [r]) = true.
Proof.
  destruct ns as [| x ns]; [discriminate |]. cbn [digits app].
  intros H A. change (forallb (IsDigit U) ((x :: ns) ++ [r]) = true).
  rewrite forallb_app, H. cbn. now rewrite A.
Qed.

Lemma scan_shaped n :
  forall src s t r c src',
    length src <= n ->
    nameInvariant U s -> numberInvariant U s ->
    scan U src s = (t, (r, c, src')) ->
    shaped U (Token_ t) src'.
Proof.
  induction n as [| n IH]; intros src s t r c src' L In Id H.
  - destruct src; [| cbn in L; lia].
    cbn in H. injection H as <- _ _ _. reflexivity.
  - destruct src as [| x src].
    + cbn in H. injection H as <- _ _ _. reflexivity.
    + cbn [length] in L. cbn [scan] in H.
      pose proof (afterLine_length src) as AL.
      unfold nameInvariant, numberInvariant in In, Id.
      destruct (searchName s) eqn:SN.
      * destruct (IsDigit U x || IsLetter U x) eqn:A.
        -- apply IH in H; [exact H | lia | |].
           ++ unfold nameInvariant. cbn. now apply identifier_snoc.
           ++ unfold numberInvariant. cbn. exact Id.
        -- unfold lexed in H. injection H as <- _ _ <-.
           cbn. exists (name s). repeat split; auto.
           unfold alnum. now rewrite A.
      * destruct (searchNumber s) eqn:SD.
        -- destruct (IsDigit U x) eqn:A.
           ++ apply IH in H; [exact H | lia | |].
              ** unfold nameInvariant. cbn. exact In.
              ** unfold numberInvariant. cbn. now apply digits_snoc.
           ++ unfold lexed in H. injection H as <- _ _ <-.
              cbn. exists (number s). repeat split; auto. now rewrite A.
        -- destruct (IsLetter U x) eqn:Lx.
           { apply IH in H; [exact H | lia | |].
             - unfold nameInvariant. cbn. rewrite In. cbn. now rewrite Lx.
             - unfold numberInvariant. cbn. exact Id. }
           destruct (IsDigit U x) eqn:Dx.
           { apply IH in H; [exact H | lia | |].
             - unfold nameInvariant. cbn. exact In.
             - unfold numberInvariant. cbn. rewrite Id. cbn. now rewrite Dx. }
           repeat match type of H with
                  | (if ?b then _ else _) = _ => destruct b
                  | scan U _ _ = _ =>
                      apply IH in H;
                      [exact H | lia
                       | unfold nameInvariant; cbn; exact In
                       | unfold numberInvariant; cbn; exact Id]
                  | lexed _ _ _ _ _ = _ =>
                      unfold lexed in H; injection H as <- _ _ <-; reflexivity
                  end.
Qed.

(** X3. What the token of [next] carries: a name is a letter followed by
    letters and digits, a number is one digit or more, both as long as
    they can be (the rune left at the front of the source ends them, so
    a name or a number is never returned at the very end of the source);
    a bracket, a comma and an equals sign carry their own character; any
    other result is [UnknownToken]. *)
Theorem next_token_shape :
  forall l : Lexer,
    shaped U (Token_ (fst (next U l))) (source (snd (next U l))).
Proof.
  intros l. unfold next.
  destruct (scan U (source l) _) as [t [[r c] src]] eqn:E. cbn [fst snd source].
  apply (scan_shaped _ _ _ _ _ _ _ (le_n _)) in E; auto; reflexivity.
Qed.

Lemma scan_to_the_end_in_name rest : forall s,
  searchName s = true ->
  forallb (alnum U) rest = true ->
  scan U rest s
  = lexed UnknownToken (Some EOF) (s_row s) (s_col s + Z.of_nat (length rest))%Z [].
Proof.
  induction rest as [| x rest IH]; intros s SN A.
  - cbn. now rewrite Z.add_0_r.
  - cbn [forallb] in A. apply andb_prop in A. destruct A as [Ax A].
    cbn [scan]. rewrite SN. unfold alnum in Ax. rewrite Ax.
    rewrite IH by (cbn; auto). cbn [s_row s_col length].
    f_equal. lia.
Qed.

Lemma scan_to_the_end_in_number rest : forall s,
  searchName s = false -> searchNumber s = true ->
  forallb (IsDigit U) rest = true ->
  scan U rest s
  = lexed UnknownToken (Some EOF) (s_row s) (s_col s + Z.of_nat (length rest))%Z [].
Proof.
  induction rest as [| x rest IH]; intros s SN SD A.
  - cbn. now rewrite Z.add_0_r.
  - cbn [forallb] in A. apply andb_prop in A. destruct A as [Ax A].
    cbn [scan]. rewrite SN, SD, Ax.
    rewrite IH by (cbn; auto). cbn [s_row s_col length].
    f_equal. lia.
Qed.

(** X4. A source that ends inside a name or a number loses it: when
    all that is left is an identifier, or digits, [next] reads it to the
    end and returns the end of the stream, not the token. *)
Theorem last_word_is_lost :
  forall (ns : list rune) (rw cl : Z) (q : list TokenResult),
    identifier U ns || digits U ns = true ->
    next U (mkLexer rw cl ns q)
    = (endOfStream, mkLexer rw (cl + Z.of_nat (length ns))%Z [] q).
Proof.
  intros ns rw cl q H. unfold next. cbn [source row col tokenQueue].
  destruct ns as [| x ns]; [discriminate |].
  apply orb_true_iff in H. destruct H as [H | H].
  - cbn [identifier] in H. apply andb_prop in H. destruct H as [Lx A].
    cbn [scan searchName searchNumber]. rewrite Lx.
    rewrite scan_to_the_end_in_name by auto.
    cbn [s_row s_col length lexed]. unfold lexed, endOfStream.
    do 2 f_equal. lia.
  - cbn [digits forallb] in H. apply andb_prop in H. destruct H as [Dx A].
    cbn [scan searchName searchNumber].
    destruct (IsLetter U x) eqn:Lx.
    + rewrite scan_to_the_end_in_name.
      * cbn [s_row s_col length]. unfold lexed, endOfStream. do 2 f_equal. lia.
      * reflexivity.
      * clear -A. induction ns as [| y ns IH]; [reflexivity |].
        cbn [forallb] in *. apply andb_prop in A. destruct A as [Ay A].
        unfold alnum at 1. rewrite Ay. cbn. auto.
    + rewrite Dx. rewrite scan_to_the_end_in_number by auto.
      cbn [s_row s_col length]. unfold lexed, endOfStream. do 2 f_equal. lia.
Qed.

End TokenShape.

Lemma last_word_is_lost_witness :
  identifier latin1Only (runes "Foo") || digits latin1Only (runes "Foo") = true
  /\ next latin1Only (New (runes "Foo")) = (endOfStream, mkLexer 0 3 [] []).
Proof.
  split; [reflexivity |].
  apply (last_word_is_lost latin1Only (runes "Foo") 0 0 []). reflexivity.
Defined.

Lemma line_then_rest body rest :
  forallb notNewline body = true ->
  hasLine (body ++ 10%Z :: rest) = true
  /\ afterLine (body ++ 10%Z :: rest) = rest.
Proof.
  induction body as [| x body IH]; cbn; intros H.
  - auto.
  - apply andb_prop in H. destruct H as [Hx H].
    unfold notNewline in Hx. apply negb_true_iff in Hx. rewrite Hx. auto.
Qed.

Lemma no_line body : forallb notNewline body = true -> hasLine body = false.
Proof.
  induction body as [| x body IH]; cbn; intros H.
  - reflexivity.
  - apply andb_prop in H. destruct H as [Hx H].
    unfold notNewline in Hx. apply negb_true_iff in Hx. rewrite Hx. auto.
Qed.

Section Comments.

Variable U : UnicodeTables.

(** X5. A line comment between two tokens is invisible: two slashes,
    any runes but a newline, and the newline are skipped, and [next]
    returns what it returns on the rest of the source, with the same
    row and column (the comment's newline is not counted as a row). *)
Theorem line_comment_is_skipped :
  forall (body rest : list rune) (rw cl : Z) (q : list TokenResult),
    forallb notNewline body = true ->
    next U (mkLexer rw cl (47 :: 47 :: body ++ 10 :: rest)%Z q)
    = next U (mkLexer rw cl rest q).
Proof.
  intros body rest rw cl q H.
  destruct (line_then_rest body rest H) as [HL AL].
  unfold next. cbn [source row col tokenQueue].
  cbn -[hasLine afterLine scan]. unfold scan at 1. fold (scan U).
  cbn -[hasLine afterLine scan]. unfold scan at 1. fold (scan U).
  cbn -[hasLine afterLine scan].
  rewrite HL, AL. reflexivity.
Qed.

(** X6. A comment that runs to the end of the source without a newline
    ends the stream: [next] returns [UnknownToken] with [io.EOF] and
    nothing is left of the source. *)
Theorem unterminated_comment_ends_the_stream :
  forall (body : list rune) (rw cl : Z) (q : list TokenResult),
    forallb notNewline body = true ->
    next U (mkLexer rw cl (47 :: 47 :: body)%Z q)
    = (endOfStream, mkLexer rw cl [] q).
Proof.
  intros body rw cl q H. pose proof (no_line body H) as HL.
  unfold next. cbn [source row col tokenQueue].
  cbn -[hasLine afterLine scan]. unfold scan at 1. fold (scan U).
  cbn -[hasLine afterLine scan]. unfold scan at 1. fold (scan U).
  cbn -[hasLine afterLine scan].
  rewrite HL. reflexivity.
Qed.

End Comments.

Lemma line_comment_is_skipped_witness :
  forallb notNewline (runes " note") = true
  /\ next latin1Only (New (runes "// note" ++ 10%Z :: runes "F[]"))
     = next latin1Only (New (runes "F[]")).
Proof.
  split; [reflexivity |].
  apply (line_comment_is_skipped latin1Only (runes " note") (runes "F[]") 0 0 []).
  reflexivity.
Defined.

Lemma unterminated_comment_ends_the_stream_witness :
  forallb notNewline (runes " F[]") = true
  /\ next latin1Only (New (runes "// F[]")) = (endOfStream, mkLexer 0 0 [] []).
Proof.
  split; [reflexivity |].
  apply (unterminated_comment_ends_the_stream latin1Only (runes " F[]") 0 0 []).
  reflexivity.
Defined.

(** * The token queue *)

Section Queue.

Variable U : UnicodeTables.

Lemma fill_length n : forall l,
  length (tokenQueue (fill U n l)) = length (tokenQueue l) + n.
Proof.
  induction n as [| n IH]; intros l; cbn [fill].
  - lia.
  - pose proof (next_keeps_queue U l) as K. unfold lognext.
    destruct (next U l) as [t l']. cbn [snd] in K.
    rewrite IH. cbn [tokenQueue]. rewrite length_app, K. cbn. lia.
Qed.

Lemma fill_keeps n l i :
  i < length (tokenQueue l) ->
  nth_error (tokenQueue (fill U n l)) i = nth_error (tokenQueue l) i.
Proof.
  intros H. destruct (fill_appends U n l) as [extra E].
  rewrite E. now apply nth_error_app1.
Qed.

(** X7. Looking at the next token and then dropping it is taking it:
    [Peek(1)] always succeeds, and after it [Next] and [Consume] leave
    the lexer where [Next] alone would have, with the token [Peek]
    showed. *)
Theorem Peek_then_Consume_is_Next :
  forall l : Lexer,
    exists t l1 l2,
      Peek U 1 l = Ok (t, l1)
      /\ Next U l = Ok (t, l2)
      /\ Next U l1 = Ok (t, l2)
      /\ Consume l1 = Ok (tt, l2).
Proof.
  intros l. unfold Peek, queued, Next, Consume.
  destruct (tokenQueue l) as [| t q] eqn:Q.
  - cbn [length Nat.sub fill]. unfold lognext, next.
    destruct (scan U (source l) _) as [t [[r c] src]].
    rewrite Q. cbn.
    exists t, (mkLexer r c src [t]), (mkLexer r c src []).
    repeat split.
  - cbn [length Nat.sub fill]. rewrite Q. cbn.
    exists t, l, (mkLexer (row l) (col l) (source l) q).
    rewrite Q. repeat split.
Qed.

(** X8. [Peek] with a positive count never fails, keeps the tokens that
    were queued before it in their places, and reads nothing when it is
    asked again: the second [Peek] returns the same token and the same
    lexer. *)
Theorem Peek_is_idempotent :
  forall (count : nat) (l : Lexer),
    exists t l1,
      Peek U (S count) l = Ok (t, l1)
      /\ Peek U (S count) l1 = Ok (t, l1)
      /\ forall i, i < length (tokenQueue l) ->
                   nth_error (tokenQueue l1) i = nth_error (tokenQueue l) i.
Proof.
  intros count l. unfold Peek at 1. unfold queued.
  remember (fill U (S count - length (tokenQueue l)) l) as l1 eqn:L1.
  assert (Len : count < length (tokenQueue l1)).
  { rewrite L1, fill_length. lia. }
  destruct (nth_error (tokenQueue l1) count) as [t |] eqn:N.
  - exists t, l1. split; [reflexivity |]. split.
    + apply Peek_filled; [exact N | discriminate].
    + intros i Hi. rewrite L1. now apply fill_keeps.
  - apply nth_error_None in N. lia.
Qed.

End Queue.

(** * More of the parser *)

Section ParserTotal.

Variable U : UnicodeTables.

(** X9. [Parse] comes to an end on every source text: the fuel of
    [compile], three per rune and three more, is never exhausted, and
    any larger amount gives the same result. *)
Theorem Parse_is_total :
  forall (src : list rune) (k : nat),
    Parse U (enough src) (New src) <> OutOfFuel
    /\ Parse U (enough src + k) (New src) = Parse U (enough src) (New src).
Proof.
  intros src k. split.
  - apply Parse_terminates.
  - apply Parse_settled, Parse_terminates.
Qed.

Lemma scan_layout src : forall s,
  searchName s = false -> searchNumber s = false ->
  forallb layout src = true ->
  fst (scan U src s) = endOfStream /\ snd (snd (scan U src s)) = [].
Proof.
  induction src as [| x src IH]; intros s SN SD H.
  - cbn. auto.
  - cbn [forallb] in H. apply andb_prop in H. destruct H as [Hx H].
    cbn [scan]. rewrite SN, SD.
    assert (Lx : IsLetter U x = false /\ IsDigit U x = false /\ (x =? 61)%Z = false).
    { unfold layout, isNewline, isBlank in Hx.
      unfold IsLetter, IsDigit, between, MaxLatin1, latin1Letter.
      repeat match type of Hx with
             | (_ || _) = true => apply orb_true_iff in Hx; destruct Hx as [Hx | Hx]
             end;
        apply Z.eqb_eq in Hx; subst x; repeat split; reflexivity. }
    destruct Lx as (-> & -> & ->).
    unfold layout in Hx.
    destruct (isNewline x); [apply IH; auto |].
    cbn in Hx. rewrite Hx. apply IH; auto.
Qed.

(** X10. A source of layout only (spaces, tabs, newlines; the empty
    source too) is an empty program: [Parse] returns the empty block and
    [compile] the empty text. *)
Theorem blank_source_is_empty_program :
  forall src : list rune,
    forallb layout src = true ->
    lift (Parse U (enough src) (New src)) = Ok (BlockStatement [])
    /\ compile U src = Ok "".
Proof.
  intros src H.
  assert (N : exists r c, next U (New src) = (endOfStream, mkLexer r c [] [])).
  { unfold next. cbn [New source row col tokenQueue].
    pose proof (scan_layout src (mkScan 0 0 [] [] false false false)
                  eq_refl eq_refl H) as [E1 E2].
    destruct (scan U src (mkScan 0 0 [] [] false false false))
      as [t [[r c] src']].
    cbn [fst snd] in E1, E2. subst t src'. now exists r, c. }
  destruct N as (r & c & N).
  assert (P : Parse U (enough src) (New src)
              = Ok (BlockStatement [], mkLexer r c [] [])).
  { unfold enough. replace (3 * length src + 3) with (S (S (3 * length src + 1))) by lia.
    unfold Parse. cbn [parseBlock parseCall]. unfold bind, expectToken, bind, Next.
    change (tokenQueue (New src)) with (@nil TokenResult).
    unfold lognext. rewrite N. reflexivity. }
  unfold compile. rewrite P. split; reflexivity.
Qed.

End ParserTotal.

Lemma blank_source_is_empty_program_witness :
  forallb layout (runes "  ") = true
  /\ lift (Parse latin1Only (enough (runes "  ")) (New (runes "  ")))
     = Ok (BlockStatement [])
  /\ compile latin1Only (runes "  ") = Ok "".
Proof.
  split; [reflexivity |].
  apply (blank_source_is_empty_program latin1Only (runes "  ")). reflexivity.
Defined.

Section ParserSafety.

Variable U : UnicodeTables.

Lemma next_sound l :
  Error_ (fst (next U l)) = None -> Typ (Token_ (fst (next U l))) <> TokenUnknown.
Proof.
  unfold next.
  destruct (scan U (source l) _) as [t [[r c] src]] eqn:E. cbn [fst].
  destruct (scan_kinds U _ _ _ _ _ (le_n _) E) as [[_ K] | ->].
  - intros _ T. rewrite T in K. discriminate.
  - discriminate.
Qed.

Lemma fill_sound n : forall l, soundQueue l -> soundQueue (fill U n l).
Proof.
  induction n as [| n IH]; intros l Sq; cbn [fill]; [exact Sq |].
  pose proof (next_keeps_queue U l) as K. pose proof (next_sound l) as T.
  unfold lognext. destruct (next U l) as [t l']. cbn [fst snd] in K, T.
  apply IH. unfold soundQueue in *. cbn [tokenQueue]. rewrite K.
  apply Forall_app. split; [exact Sq |]. constructor; [exact T | constructor].
Qed.

Lemma Peek_safe count l :
  soundQueue l ->
  exists t l1,
    Peek U (S count) l = Ok (t, l1)
    /\ soundQueue l1 /\ count < length (tokenQueue l1).
Proof.
  intros Sq. unfold Peek, queued.
  remember (fill U (S count - length (tokenQueue l)) l) as l1 eqn:L1.
  assert (Len : count < length (tokenQueue l1)).
  { rewrite L1, fill_length. lia. }
  destruct (nth_error (tokenQueue l1) count) as [t |] eqn:N.
  - exists t, l1. repeat split; auto. rewrite L1. now apply fill_sound.
  - apply nth_error_None in N. lia.
Qed.

Lemma Consume_safe l :
  soundQueue l -> 0 < length (tokenQueue l) ->
  exists l', Consume l = Ok (tt, l') /\ soundQueue l'.
Proof.
  unfold Consume, soundQueue. destruct (tokenQueue l) as [| t q]; cbn; [lia |].
  intros Sq _. eexists. split; [reflexivity |]. cbn. now inversion Sq.
Qed.

Lemma Next_safe l :
  soundQueue l ->
  exists t l',
    Next U l = Ok (t, l') /\ soundQueue l'
    /\ (Error_ t = None -> Typ (Token_ t) <> TokenUnknown).
Proof.
  unfold Next, soundQueue. destruct (tokenQueue l) as [| t q] eqn:Q.
  - intros _. pose proof (next_keeps_queue U l) as K.
    pose proof (next_sound l) as T.
    unfold lognext. destruct (next U l) as [t l']. cbn [fst snd] in K, T.
    exists t, l'. repeat split; auto. rewrite K, Q. constructor.
  - intros Sq. inversion Sq; subst. eexists _, _. repeat split; eauto.
Qed.

Lemma expectToken_safe tokenType l :
  soundQueue l -> tokenType <> TokenUnknown ->
  exists r l', expectToken U tokenType l = Ok (r, l') /\ soundQueue l'.
Proof.
  intros Sq K. destruct (Next_safe l Sq) as (t & l' & N & Sq' & T).
  destruct (Error_ t) as [err |] eqn:E.
  - unfold expectToken, bind. rewrite N, E. eexists _, _. split; [reflexivity | exact Sq'].
  - destruct (expectToken_consumes U tokenType l t l' N K) as [r X].
    + intros _. now apply T.
    + exists r, l'. auto.
Qed.

Lemma safe_bind {A B} (m : M Lexer A) (k : A -> M Lexer B) l :
  safe (m l) ->
  (forall a l', m l = Ok (a, l') -> soundQueue l' -> safe (k a l')) ->
  safe (bind m k l).
Proof.
  unfold bind. destruct (m l) as [[a l'] | [e | msg] | msg |]; cbn; auto.
Qed.

Lemma safe_ret {A} (a : A) l : soundQueue l -> safe (ret a l).
Proof. auto. Qed.

Lemma parse_safe n :
  (forall l, soundQueue l -> safe (parseCall U n l))
  /\ (forall l, soundQueue l -> safe (parseAssignment U n l))
  /\ (forall l, soundQueue l -> safe (parseExpression U n l))
  /\ (forall l, soundQueue l -> safe (parseArgs U n l))
  /\ (forall args l, soundQueue l -> safe (parseArgsLoop U n args l)).
Proof.
  induction n as [| n (IHc & IHa & IHe & IHs & IHl)].
  - repeat split; intros; exact I.
  - repeat split.
    + intros l Sq. cbn [parseCall]. unfold bind at 1.
      destruct (expectToken_safe TokenName l Sq) as (r & l1 & -> & S1);
        [discriminate |].
      destruct (Error_ r); [exact S1 |]. unfold bind at 1.
      destruct (expectToken_safe TokenSquareBracketOpen l1 S1) as (r2 & l2 & -> & S2);
        [discriminate |].
      apply safe_bind; [now apply IHs |].
      intros [args | err] l3 _ S3; [| exact S3]. unfold bind.
      destruct (expectToken_safe TokenSquareBracketClose l3 S3) as (r4 & l4 & -> & S4);
        [discriminate |].
      exact S4.
    + intros l Sq. cbn [parseAssignment]. unfold bind at 1.
      destruct (expectToken_safe TokenName l Sq) as (r & l1 & -> & S1);
        [discriminate |].
      destruct (Error_ r); [exact S1 |]. unfold bind at 1.
      destruct (expectToken_safe TokenEquals l1 S1) as (r2 & l2 & -> & S2);
        [discriminate |].
      apply safe_bind; [now apply IHe |].
      intros [rhs | err] l3 _ S3; exact S3.
    + intros l Sq. cbn [parseExpression]. unfold bind at 1.
      destruct (Peek_safe 0 l Sq) as (t & l1 & -> & S1 & L1).
      destruct (Error_ t); [exact S1 |].
      destruct (TokenType_eqb (Typ (Token_ t)) TokenName).
      * unfold bind at 1.
        destruct (Peek_safe 1 l1 S1) as (t2 & l2 & -> & S2 & L2).
        destruct (match Error_ t2 with None => _ | Some _ => _ end);
          [now apply IHc |].
        unfold bind at 1.
        destruct (Peek_safe 1 l2 S2) as (t3 & l3 & -> & S3 & L3).
        destruct (match Error_ t3 with None => _ | Some _ => _ end);
          [now apply IHa |].
        unfold bind.
        destruct (Consume_safe l3 S3) as (l4 & -> & S4); [lia |]. exact S4.
      * destruct (TokenType_eqb (Typ (Token_ t)) TokenNumber); [| exact S1].
        unfold bind.
        destruct (Consume_safe l1 S1) as (l4 & -> & S4); [lia |]. exact S4.
    + intros l Sq. cbn [parseArgs]. unfold bind at 1, MustPeek, bind at 1.
      destruct (Peek_safe 0 l Sq) as (t & l1 & -> & S1 & L1).
      destruct (Error_ t); [exact I |]. cbn [ret].
      destruct (negb _); [| exact S1].
      apply safe_bind; [now apply IHe |].
      intros [e | err] l2 _ S2; [now apply IHl | exact S2].
    + intros args l Sq. cbn [parseArgsLoop]. unfold bind at 1.
      destruct (Peek_safe 0 l Sq) as (t & l1 & -> & S1 & L1).
      destruct (Error_ t); [exact S1 |].
      destruct (TokenType_eqb _ _); [| exact S1].
      unfold bind at 1.
      destruct (Consume_safe l1 S1) as (l2 & -> & S2); [lia |].
      apply safe_bind; [now apply IHe |].
      intros [e | err] l3 _ S3; [now apply IHl | exact S3].
Qed.

Lemma parseBlock_safe n : forall expressions l,
  soundQueue l -> safe (parseBlock U n expressions l).
Proof.
  induction n as [| n IH]; intros expressions l Sq; [exact I |].
  cbn [parseBlock]. destruct (parse_safe n) as (Sc & _).
  apply safe_bind; [now apply Sc |].
  intros [e | err] l' _ Sq'; [now apply IH |].
  destruct err; [exact Sq' | exact I | exact I].
Qed.

(** X11. On every source text and with any fuel, the parser keeps to
    what the lexer allows: no run of [Parse] panics, [Consume] is never
    called on an empty queue, and no kind without a name is ever
    formatted.  A run ends with a block, with [log.Fatal] on an error of
    the lexer or the parser, or without fuel. *)
Theorem Parse_never_panics :
  forall (n : nat) (src : list rune),
    match Parse U n (New src) with
    | Ok _ | Fatal (FatalError _) | OutOfFuel => True
    | Fatal (FatalMessage _) | Panic _ => False
    end.
Proof.
  intros n src.
  pose proof (parseBlock_safe n [] (New src)) as Sq. unfold Parse.
  destruct (parseBlock U n [] (New src)) as [[b l] | [e | m] | m |];
    try exact I; apply Sq; constructor.
Qed.

End ParserSafety.

Section ParserOutput.

Variable U : UnicodeTables.

Lemma parse_shapes n :
  (forall l e l', parseCall U n l = Ok (Value_ e, l') ->
                  isCall e = true /\ lhsIsName e = true)
  /\ (forall l e l', parseAssignment U n l = Ok (Value_ e, l') -> lhsIsName e = true)
  /\ (forall l e l', parseExpression U n l = Ok (Value_ e, l') -> lhsIsName e = true)
  /\ (forall l es l', parseArgs U n l = Ok (Value_ es, l') ->
                      forallb lhsIsName es = true)
  /\ (forall args l es l',
         forallb lhsIsName args = true ->
         parseArgsLoop U n args l = Ok (Value_ es, l') ->
         forallb lhsIsName es = true).
Proof.
  induction n as [| n (IHc & IHa & IHe & IHs & IHl)].
  - repeat split; intros; discriminate.
  - split; [| split; [| split; [| split]]].
    + intros l e l' H. cbn [parseCall] in H.
      step H. destruct (Error_ t) eqn:Et; [returned H |].
      step H. step H. destruct o as [args | err]; [| returned H].
      step H. returned H. apply IHs in E1. cbn. auto.
    + intros l e l' H. cbn [parseAssignment] in H.
      step H. destruct (Error_ t) eqn:Et; [returned H |].
      step H. step H. destruct o as [rhs | err]; [| returned H].
      returned H. apply IHe in E1. exact E1.
    + intros l e l' H. cbn [parseExpression] in H.
      step H. destruct (Error_ t) eqn:Et; [returned H |].
      destruct (TokenType_eqb (Typ (Token_ t)) TokenName).
      * step H. destruct (match Error_ t0 with None => _ | Some _ => _ end).
        -- apply IHc in H. apply H.
        -- step H.
           destruct (match Error_ t1 with None => _ | Some _ => _ end).
           ++ apply IHa in H. exact H.
           ++ step H. returned H. reflexivity.
      * destruct (TokenType_eqb (Typ (Token_ t)) TokenNumber); [| returned H].
        step H. returned H. reflexivity.
    + intros l es l' H. cbn [parseArgs] in H.
      step H. destruct (negb _); [| returned H; reflexivity].
      step H. destruct o as [e | err]; [| returned H].
      apply IHl in H; [exact H |]. apply IHe in E0. cbn. now rewrite E0.
    + intros args l es l' A H. cbn [parseArgsLoop] in H.
      step H. destruct (Error_ t) eqn:Et; [returned H |].
      destruct (TokenType_eqb _ _); [| returned H; exact A].
      step H. step H. destruct o as [e | err]; [| returned H].
      apply IHl in H; [exact H |]. apply IHe in E1.
      rewrite forallb_app, A. cbn. now rewrite E1.
Qed.

Lemma parseBlock_shapes n : forall expressions l es l',
  forallb (fun e => isCall e && lhsIsName e) expressions = true ->
  parseBlock U n expressions l = Ok (BlockStatement es, l') ->
  forallb (fun e => isCall e && lhsIsName e) es = true.
Proof.
  induction n as [| n IH]; intros expressions l es l' A H; [discriminate |].
  cbn [parseBlock] in H. destruct (parse_shapes n) as (Sc & _).
  step H. destruct o as [e | err].
  - apply IH in H; [exact H |]. apply Sc in E. destruct E as [E1 E2].
    rewrite forallb_app, A. cbn. now rewrite E1, E2.
  - destruct err; try discriminate H. returned H. exact A.
Qed.

(** X12. What [Parse] builds: every expression of the block is a call,
    and in the whole tree the left-hand side of every assignment is a
    reference to a name, which is what the printer's conversions of
    [a.Lhs] take for granted. *)
Theorem Parse_builds_calls :
  forall (n : nat) (l l' : Lexer) (es : list Expression),
    Parse U n l = Ok (BlockStatement es, l') ->
    forallb (fun e => isCall e && lhsIsName e) es = true.
Proof.
  intros n l l' es H. apply (parseBlock_shapes n [] l es l'); auto.
Qed.

End ParserOutput.

Lemma Parse_builds_calls_witness :
  forallb (fun e => isCall e && lhsIsName e)
    [CallOf "F" [Assign (Var "x") (Assign (Var "y") (Num "1"))]; CallOf "G" []]
  = true.
Proof.
  apply (Parse_builds_calls latin1Only
           (enough (runes "F[x = y = 1] G[]"))
           (New (runes "F[x = y = 1] G[]"))
           (mkLexer 0 10 [] [])
           [CallOf "F" [Assign (Var "x") (Assign (Var "y") (Num "1"))]; CallOf "G" []]).
  reflexivity.
Defined.

(** X13. A statement has to begin with a name: when the token found
    where a statement begins is of another kind, [Parse] stops the
    process with the error of [expectToken], which names the expected
    kind, the kind found and the place of the token. *)
Theorem statement_begins_with_a_name :
  forall (U : UnicodeTables) (n : nat) (l l' : Lexer) (t : TokenResult),
    Next U l = Ok (t, l') ->
    Error_ t = None ->
    producible (Typ (Token_ t)) = true ->
    Typ (Token_ t) <> TokenName ->
    Parse U (S (S n)) l
    = Fatal (FatalError (ErrTokenNotExpected
                           "name" (kindName (Typ (Token_ t))) (Loc (Token_ t)))).
Proof.
  intros U n l l' t N E K T.
  unfold Parse. cbn [parseBlock parseCall]. unfold bind, expectToken, bind.
  rewrite N, E.
  destruct (Typ (Token_ t)); try discriminate K; try congruence; reflexivity.
Qed.

Lemma statement_begins_with_a_name_witness :
  Parse latin1Only 2 (New (runes "] F[]"))
  = Fatal (FatalError (ErrTokenNotExpected
                         "name" "close square bracket" (mkLocation 0 0 ""))).
Proof.
  apply (statement_begins_with_a_name latin1Only 0
           (New (runes "] F[]"))
           (mkLexer 0 0 (runes " F[]") [])
           (mkTokenResult (mkToken TokenSquareBracketClose "]" (mkLocation 0 0 "")) None));
    try reflexivity; discriminate.
Defined.

(** * More of the printer *)

Lemma mapM_tracks_print l :
  (forall a, In a l -> tracksPrint a) ->
  forall p ss p',
    mapM printExpression l p = Ok (ss, p') ->
    usingPrintBuiltin p' = usingPrintBuiltin p || existsb uses_print l.
Proof.
  induction l as [| a l IH]; intros T p ss p' H; cbn in H.
  - injection H as _ <-. cbn. now rewrite orb_false_r.
  - unfold bind in H.
    destruct (printExpression a p) as [[s p1] | | |] eqn:Ea; try discriminate.
    destruct (mapM printExpression l p1) as [[ss' p2] | | |] eqn:El; try discriminate.
    injection H as _ <-.
    apply (T a (or_introl eq_refl)) in Ea.
    apply IH in El; [| intros; apply T; now right].
    rewrite El, Ea. cbn. now rewrite orb_assoc.
Qed.

Lemma uses_print_args subargs call :
  existsb uses_print subargs = true ->
  uses_print (CallExpression subargs call) = true.
Proof.
  intros H. cbn [uses_print]. rewrite H.
  now rewrite orb_true_r.
Qed.

Lemma letForm_tracks_print l :
  (forall a, In a l -> tracksPrint a) ->
  (forall lhs rhs, In (AssignmentExpression lhs rhs) l -> tracksPrint rhs) ->
  forall params p r p',
    (existsb uses_print l = true -> usingPrintBuiltin p = true) ->
    letForm printExpression l params p = Ok (r, p') ->
    usingPrintBuiltin p' = usingPrintBuiltin p || bindings uses_print l.
Proof.
  induction l as [| a rest IH]; intros T R params p r p' A H; cbn [letForm] in H.
  - discriminate.
  - destruct rest as [| b rest].
    + unfold bind in H.
      destruct (printExpression a p) as [[body p1] | | |] eqn:Ea; try discriminate.
      injection H as _ <-.
      apply (T a (or_introl eq_refl)) in Ea. rewrite Ea.
      cbn [bindings]. rewrite orb_false_r. apply absorbed.
      intros Ua. apply A. cbn [existsb]. now rewrite Ua.
    + unfold bind at 1 in H.
      assert (Step : forall p1 params1,
                 usingPrintBuiltin p1 = usingPrintBuiltin p || rhs_uses uses_print a ->
                 letForm printExpression (b :: rest) params1 p1 = Ok (r, p') ->
                 usingPrintBuiltin p' =
                   usingPrintBuiltin p || bindings uses_print (a :: b :: rest)).
      { intros p1 params1 F1 G.
        apply IH in G.
        - rewrite G, F1. cbn [bindings]. now rewrite orb_assoc.
        - intros; apply T; now right.
        - intros lhs rhs I; apply (R lhs rhs); now right.
        - intros Ub. rewrite F1. apply orb_true_iff. left. apply A.
          cbn [existsb] in *. rewrite Ub. now rewrite orb_true_r. }
      destruct a as [v | v | subargs call | lhs rhs].
      * cbn in H. apply (Step _ _ (eq_sym (orb_false_r _)) H).
      * cbn in H. apply (Step _ _ (eq_sym (orb_false_r _)) H).
      * cbn in H. apply (Step _ _ (eq_sym (orb_false_r _)) H).
      * unfold bind at 1 in H.
        destruct (asVariable lhs p) as [[v p0] | | |] eqn:Ev; try discriminate.
        apply asVariable_keeps in Ev. subst p0.
        unfold bind at 1 in H.
        destruct (printExpression rhs p) as [[value p1] | | |] eqn:Er; try discriminate.
        apply (R lhs rhs (or_introl eq_refl)) in Er.
        cbn in H. apply (Step _ _ Er H).
Qed.

Lemma defParams_tracks_print l :
  (forall lhs rhs, In (AssignmentExpression lhs rhs) l -> tracksPrint rhs) ->
  (forall subargs call a,
      In (CallExpression subargs call) l -> In a subargs -> tracksPrint a) ->
  forall params p r p',
    (existsb uses_print l = true -> usingPrintBuiltin p = true) ->
    defParams printExpression l params p = Ok (r, p') ->
    usingPrintBuiltin p' = usingPrintBuiltin p || existsb (rhs_uses uses_print) l.
Proof.
  induction l as [| arg rest IH]; intros R C params p r p' A H; cbn [defParams] in H.
  - injection H as _ <-. cbn. now rewrite orb_false_r.
  - unfold bind at 1 in H.
    assert (Step : forall p1 params1,
               usingPrintBuiltin p1 = usingPrintBuiltin p || rhs_uses uses_print arg ->
               defParams printExpression rest params1 p1 = Ok (r, p') ->
               usingPrintBuiltin p' =
                 usingPrintBuiltin p || existsb (rhs_uses uses_print) (arg :: rest)).
    { intros p1 params1 F1 G.
      apply IH in G.
      - rewrite G, F1. cbn [existsb]. now rewrite orb_assoc.
      - intros lhs rhs I; apply (R lhs rhs); now right.
      - intros subargs call a I; apply (C subargs call a); now right.
      - intros Ur. rewrite F1. apply orb_true_iff. left. apply A.
        cbn [existsb]. rewrite Ur. now rewrite orb_true_r. }
    destruct arg as [v | v | subargs call | lhs rhs].
    + cbn in H. apply (Step _ _ (eq_sym (orb_false_r _)) H).
    + cbn in H. apply (Step _ _ (eq_sym (orb_false_r _)) H).
    + destruct (call =? "Args") eqn:CA.
      * unfold bind at 1 in H.
        destruct (mapM printExpression subargs p) as [[subparams p1] | | |] eqn:Em;
          try discriminate.
        apply mapM_tracks_print in Em;
          [| intros a I; apply (C subargs call a); [now left | exact I]].
        cbn in H. refine (Step _ _ _ H).
        rewrite Em. cbn [rhs_uses]. rewrite orb_false_r. apply absorbed.
        intros Us. apply A. cbn [existsb].
        now rewrite (uses_print_args subargs call Us).
      * destruct (call =? "HashMap") eqn:CH.
        -- destruct subargs as [| k [| k' subargs]]; try discriminate.
           destruct k; cbn in H; try discriminate.
           apply (Step _ _ (eq_sym (orb_false_r _)) H).
        -- cbn in H. apply (Step _ _ (eq_sym (orb_false_r _)) H).
    + unfold bind at 1 in H.
      destruct (asVariable lhs p) as [[v p0] | | |] eqn:Ev; try discriminate.
      apply asVariable_keeps in Ev. subst p0.
      unfold bind at 1 in H.
      destruct (printExpression rhs p) as [[value p1] | | |] eqn:Er; try discriminate.
      apply (R lhs rhs (or_introl eq_refl)) in Er.
      cbn in H. apply (Step _ _ Er H).
Qed.

Lemma printExpression_tracks_print n : forall e, size e < n -> tracksPrint e.
Proof.
  induction n as [| n IHn]; intros e Hs; [lia |].
  destruct e as [v | v | args call | lhs rhs];
    try (intros p s p' H; cbn in H; injection H as _ <-; cbn;
         now rewrite orb_false_r).
  assert (Sub : forall x, size x < size (CallExpression args call) -> tracksPrint x)
    by (intros x Hx; apply IHn; lia).
  assert (Targs : forall a, In a args -> tracksPrint a)
    by (intros a I; apply Sub, size_arg, I).
  intros p s p' H. cbn [printExpression] in H. unfold bind at 1 in H.
  destruct (mapM printExpression args p) as [[rendered p1] | | |] eqn:Em;
    try discriminate.
  apply mapM_tracks_print in Em; [| exact Targs].
  cbn [uses_print]. 
  destruct (call =? "Print") eqn:K1.
  { known_name K1. cbn in H. injection H as _ <-. cbn.
    now rewrite orb_true_r. }
  destruct (call =? "Let") eqn:K2.
  { known_name K2. unfold bind at 1 in H.
    destruct (letForm printExpression args [] p1) as [[r p2] | | |] eqn:El;
      try discriminate.
    cbn in H. injection H as _ <-.
    apply letForm_tracks_print in El.
    - rewrite El, Em. cbn. now rewrite orb_assoc.
    - exact Targs.
    - intros lhs rhs I. apply Sub.
      pose proof (size_arg _ _ "Let" I). pose proof (size_rhs lhs rhs). lia.
    - intros Ua. rewrite Em, Ua. apply orb_true_r. }
  destruct (call =? "HashMap") eqn:K3.
  { known_name K3. cbn in H. injection H as _ <-. cbn. rewrite Em.
    now rewrite orb_false_r. }
  destruct (call =? "Map") eqn:K4.
  { known_name K4. keeps H. cbn in H. injection H as _ <-. cbn. rewrite Em.
    now rewrite orb_false_r. }
  destruct (call =? "List") eqn:K5.
  { known_name K5. cbn in H. injection H as _ <-. cbn. rewrite Em.
    now rewrite orb_false_r. }
  destruct (call =? "Call") eqn:K6.
  { known_name K6. keeps H. cbn in H. injection H as _ <-. cbn. rewrite Em.
    now rewrite orb_false_r. }
  destruct (call =? "Assoc") eqn:K7.
  { known_name K7. unfold bind at 1 in H. cbn [setAssoc] in H. keeps H.
    cbn in H. injection H as _ <-. cbn. rewrite Em.
    now rewrite orb_false_r. }
  destruct (call =? "Has") eqn:K8.
  { known_name K8. unfold bind at 1 in H. cbn [setAssoc] in H. keeps H.
    cbn in H. injection H as _ <-. cbn. rewrite Em.
    now rewrite orb_false_r. }
  destruct (call =? "Get") eqn:K9.
  { known_name K9. unfold bind at 1 in H. cbn [setAssoc] in H. keeps H.
    cbn in H. injection H as _ <-. cbn. rewrite Em.
    now rewrite orb_false_r. }
  destruct (call =? "Cond") eqn:K10.
  { known_name K10.
    destruct args as [| c [| t rest]]; try discriminate.
    unfold bind at 1 in H.
    destruct (printExpression t p1) as [[st p2] | | |] eqn:Et; try discriminate.
    unfold bind at 1 in H.
    destruct (printExpression c p2) as [[sc p3] | | |] eqn:Ec; try discriminate.
    destruct rest as [| f rest]; try discriminate.
    unfold bind at 1 in H.
    destruct (printExpression f p3) as [[sf p4] | | |] eqn:Ef; try discriminate.
    cbn in H. injection H as _ <-.
    apply Targs in Et; [| cbn; auto].
    apply Targs in Ec; [| cbn; auto].
    apply Targs in Ef; [| cbn; auto].
    rewrite Ef, Ec, Et, Em. cbn.
    destruct (usingPrintBuiltin p), (uses_print c), (uses_print t),
      (uses_print f), (existsb uses_print rest); reflexivity. }
  destruct (call =? "Def") eqn:K11.
  { known_name K11. cbn [orb].
    assert (Generic : forall q, ret (A := string) q p1 = Ok (s, p') ->
              usingPrintBuiltin p' = usingPrintBuiltin p1).
    { intros q G. now injection G as _ <-. }
    destruct args as [| a0 rest0]; [discriminate |].
    destruct a0 as [defname | v | subargs subcall | lhs rhs].
    - destruct rest0 as [| a1 [| a2 rest]];
        try (rewrite (Generic _ H), Em; try destruct a1;
             now rewrite !orb_false_r).
      unfold bind at 1 in H.
      assert (Body : forall params p2,
                (uses_print a2 = true -> usingPrintBuiltin p2 = true) ->
                (body <- printExpression a2 ;;
                 ret (defname ++ " = lambda " ++ Join params ", " ++ ": " ++ body)) p2
                = Ok (s, p') ->
                usingPrintBuiltin p' = usingPrintBuiltin p2).
      { intros params p2 F2 G. unfold bind in G.
        destruct (printExpression a2 p2) as [[body p3] | | |] eqn:Eb;
          try discriminate.
        cbn in G. injection G as _ <-.
        apply Targs in Eb; [| cbn; auto].
        rewrite Eb. now apply absorbed. }
      assert (Seen : uses_print a2 = true -> usingPrintBuiltin p1 = true).
      { intros U2. rewrite Em. cbn [existsb]. rewrite U2.
        now rewrite !orb_true_r. }
      destruct a1 as [v1 | v1 | pargs pcall | lhs1 rhs1];
        try (change (ret (S := Printer) (@nil string) p1)
               with (Ok (@nil string, p1)) in H;
             cbv beta iota in H;
             rewrite (Body _ _ Seen H), Em;
             now rewrite !orb_false_r).
      destruct (pcall =? "Args") eqn:CA.
      + destruct (defParams printExpression pargs [] p1) as [[params p2] | | |] eqn:Ed;
          try discriminate.
        apply defParams_tracks_print in Ed.
        * rewrite (Body _ _ (fun U2 => eq_trans Ed
                     (eq_trans (f_equal (fun b => b || _) (Seen U2)) eq_refl)) H).
          rewrite Ed, Em. cbn [andb]. now rewrite orb_assoc.
        * intros lhs rhs I. apply Sub.
          pose proof (size_arg _ _ pcall I).
          pose proof (size_arg (CallExpression pargs pcall)
                        (VariableReferenceExpression defname
                         :: CallExpression pargs pcall :: a2 :: rest) "Def").
          pose proof (size_rhs lhs rhs). cbn [In] in *. intuition lia.
        * intros subargs subcall a I J. apply Sub.
          pose proof (size_arg _ _ pcall I).
          pose proof (size_arg _ _ subcall J).
          pose proof (size_arg (CallExpression pargs pcall)
                        (VariableReferenceExpression defname
                         :: CallExpression pargs pcall :: a2 :: rest) "Def").
          cbn [In] in *. intuition lia.
        * intros Up. rewrite Em. cbn [existsb].
          rewrite (uses_print_args pargs pcall Up).
          now rewrite !orb_true_r.
      + change (ret (S := Printer) (@nil string) p1)
          with (Ok (@nil string, p1)) in H.
        cbv beta iota in H.
        rewrite (Body _ _ Seen H), Em. cbn [andb].
        now rewrite !orb_false_r.
    - rewrite (Generic _ H), Em. now rewrite !orb_false_r.
    - rewrite (Generic _ H), Em. now rewrite !orb_false_r.
    - keeps H.
      destruct (printExpression rhs p1) as [[value p2] | | |] eqn:Er;
        try discriminate.
      cbn in H. injection H as _ <-.
      apply Sub in Er.
      + rewrite Er, Em. now rewrite orb_assoc.
      + pose proof (size_arg (AssignmentExpression lhs rhs)
                      (AssignmentExpression lhs rhs :: rest0) "Def").
        pose proof (size_rhs lhs rhs). cbn [In] in *. intuition lia. }
  cbn [orb].
  destruct (call =? "Inc") eqn:K12;
    cbn in H; injection H as _ <-; rewrite Em; now rewrite orb_false_r.
Qed.

Lemma printStatement_tracks_print ast p main p' :
  printStatement ast p = Ok (main, p') ->
  usingPrintBuiltin p' = usingPrintBuiltin p || block_uses_print ast.
Proof.
  destruct ast as [es]. cbn [printStatement block_uses_print]. unfold bind.
  destruct (mapM printExpression es p) as [[expressions p1] | | |] eqn:Em;
    try discriminate.
  intros H. injection H as _ <-.
  apply mapM_tracks_print in Em; [exact Em |].
  intros a _. apply (printExpression_tracks_print (S (size a))). lia.
Qed.

(** X14. What [String] returns on a printer in any state: the rendered
    block, preceded by the assoc helper when the printer had its flag
    set or the rendering uses [Assoc], [Has] or [Get], and before that
    by the print helper when the printer had that flag set or the
    rendering uses [Print].  A flag once set stays set: a printer used
    again keeps adding the helpers of its earlier runs. *)
Theorem String_adds_the_helpers :
  forall (ast : Statement) (p p' : Printer) (out : string),
    String_ ast p = Ok (out, p') ->
    exists main,
      printStatement ast p = Ok (main, p')
      /\ usingAssocBuiltin p' = usingAssocBuiltin p || block_uses_assoc ast
      /\ usingPrintBuiltin p' = usingPrintBuiltin p || block_uses_print ast
      /\ out = prepend (usingPrintBuiltin p') printPrintBuiltin
                 (prepend (usingAssocBuiltin p') printAssocBuiltin main).
Proof.
  intros ast p p' out H. unfold String_, bind in H.
  destruct (printStatement ast p) as [[main p1] | | |] eqn:E; try discriminate.
  injection H as <- <-. exists main.
  pose proof (printStatement_tracks _ _ _ _ E).
  pose proof (printStatement_tracks_print _ _ _ _ E).
  repeat split; auto.
Qed.

Lemma String_adds_the_helpers_witness :
  exists main,
    printStatement (BlockStatement [let_print]) (mkPrinter true false)
    = Ok (main, mkPrinter true true)
    /\ true = true || block_uses_assoc (BlockStatement [let_print])
    /\ true = false || block_uses_print (BlockStatement [let_print])
    /\ printPrintBuiltin ++ nl ++ printAssocBuiltin ++ nl ++ "lambda x: builtin__print(x)"
       = prepend true printPrintBuiltin (prepend true printAssocBuiltin main).
Proof.
  apply (String_adds_the_helpers (BlockStatement [let_print])
           (mkPrinter true false) (mkPrinter true true)
           (printPrintBuiltin ++ nl ++ printAssocBuiltin ++ nl
            ++ "lambda x: builtin__print(x)")).
  reflexivity.
Defined.

Lemma mapM_length {S A B} (f : A -> M S B) (l : list A) :
  forall s bs s', mapM f l s = Ok (bs, s') -> length bs = length l.
Proof.
  induction l as [| a l IH]; intros s bs s' H; cbn in H.
  - now injection H as <- _.
  - unfold bind in H.
    destruct (f a s) as [[b s1] | | |]; try discriminate.
    destruct (mapM f l s1) as [[bs' s2] | | |] eqn:E; try discriminate.
    injection H as <- _. cbn. f_equal. eapply IH, E.
Qed.

Lemma index_missing args i p :
  length args <= i -> index args i p = Panic "index out of range".
Proof.
  intros L. unfold index. apply nth_error_None in L. now rewrite L.
Qed.

(** X15. A rule that reads its arguments by position does not render a
    call with too few of them: [Let], [Map], [Call] and [Def] need one
    argument, [Has] and [Get] two, [Assoc] and [Cond] three; with fewer,
    [printExpression] does not return (the Go code panics on the
    index). *)
Theorem too_few_arguments_do_not_render :
  forall (call : string) (args : list Expression) (p p' : Printer) (s : string),
    length args < arity call ->
    printExpression (CallExpression args call) p <> Ok (s, p').
Proof.
  intros call args p p' s L H. unfold arity in L.
  cbn [printExpression] in H. unfold bind at 1 in H.
  destruct (mapM printExpression args p) as [[rendered p1] | | |] eqn:Em;
    try discriminate.
  apply mapM_length in Em.
  destruct (call =? "Print") eqn:K1.
  { known_name K1. cbn in L. lia. }
  destruct (call =? "Let") eqn:K2.
  { destruct args; [| cbn in L; lia]. discriminate. }
  destruct (call =? "HashMap") eqn:K3.
  { known_name K3. cbn in L. lia. }
  destruct (call =? "Map") eqn:K4.
  { unfold bind at 1 in H. rewrite index_missing in H by lia. discriminate. }
  destruct (call =? "List") eqn:K5.
  { known_name K5. cbn in L. lia. }
  destruct (call =? "Call") eqn:K6.
  { unfold bind at 1 in H. rewrite index_missing in H by lia. discriminate. }
  destruct (call =? "Assoc") eqn:K7.
  { unfold bind at 1 in H. cbn [setAssoc] in H.
    unfold bind at 1 in H.
    destruct (index rendered 0 _) as [[a0 q0] | | |] eqn:E0; try discriminate.
    unfold bind at 1 in H.
    destruct (index rendered 1 _) as [[a1 q1] | | |] eqn:E1; try discriminate.
    unfold bind at 1 in H.
    destruct (index rendered 2 _) as [[a2 q2] | | |] eqn:E2; try discriminate.
    rewrite index_missing in E2 by lia. discriminate. }
  destruct (call =? "Has") eqn:K8.
  { unfold bind at 1 in H. cbn [setAssoc] in H.
    unfold bind at 1 in H. rewrite index_missing in H by lia. discriminate. }
  destruct (call =? "Get") eqn:K9.
  { unfold bind at 1 in H. cbn [setAssoc] in H.
    unfold bind at 1 in H. rewrite index_missing in H by lia. discriminate. }
  destruct (call =? "Cond") eqn:K10.
  { destruct args as [| c [| t [| f rest]]]; try discriminate.
    - unfold bind in H.
      destruct (printExpression t p1) as [[? ?] | | |]; try discriminate.
      destruct (printExpression c p0) as [[? ?] | | |]; discriminate.
    - cbn in L. lia. }
  destruct (call =? "Def") eqn:K11.
  { destruct args; [discriminate | cbn in L; lia]. }
  lia.
Qed.

Lemma too_few_arguments_do_not_render_witness :
  length [Var "k"; Var "v"] < arity "Assoc"
  /\ printExpression (CallOf "Assoc" [Var "k"; Var "v"]) (mkPrinter false false)
     <> Ok ("builtin__assoc(k, v, )", mkPrinter true false).
Proof.
  split; [cbn; lia |].
  apply (too_few_arguments_do_not_render "Assoc" [Var "k"; Var "v"]).
  cbn. lia.
Defined.

(** X16. [Def] is a definition only with a name and two more arguments
    or with an assignment: with a name and fewer than two more
    arguments, or with a number or a call first, no branch of the rule
    returns and the call is rendered like any other, as [Def(...)]. *)
Theorem Def_falls_through :
  forall (args : list Expression) (p : Printer),
    defFallsThrough args = true ->
    printExpression (CallExpression args "Def") p =
      (rendered <- mapM printExpression args ;;
       ret ("Def(" ++ Join rendered "," ++ ")")) p.
Proof.
  intros args p H. cbn [printExpression]. unfold bind.
  destruct (mapM printExpression args p) as [[rendered p1] | | |]; try reflexivity.
  cbn.
  destruct args as [| [v | v | subargs call | lhs rhs] rest]; try discriminate;
    try reflexivity.
  cbn in H. destruct rest as [| a1 [| a2 rest]]; try reflexivity. discriminate.
Qed.

Lemma Def_falls_through_witness :
  defFallsThrough [Var "f"; CallOf "Args" [Var "x"]] = true
  /\ printExpression (CallOf "Def" [Var "f"; CallOf "Args" [Var "x"]])
       (mkPrinter false false)
     = Ok ("Def(f,Args(x))", mkPrinter false false).
Proof.
  split; [reflexivity |].
  apply (Def_falls_through [Var "f"; CallOf "Args" [Var "x"]] (mkPrinter false false)).
  reflexivity.
Defined.

Lemma letForm_more pe a b rest params :
  letForm pe (a :: b :: rest) params =
    (params1 <-
       match a with
       | AssignmentExpression lhs rhs =>
           variable <- asVariable lhs ;;
           value <- pe rhs ;;
           ret (app params [variable ++ " = " ++ value])
       | _ => ret params
       end ;;
     params2 <-
       match a with
       | VariableReferenceExpression v => ret (app params1 [v])
       | _ => ret params1
       end ;;
     letForm pe (b :: rest) params2).
Proof. reflexivity. Qed.

Lemma letForm_generic body : forall bs params p,
  forallb generic bs = true ->
  forallb namedBinding bs = true ->
  generic body = true ->
  letForm printExpression (bs ++ [body]) params p
  = Ok ((params ++ flat_map binding bs)%list, transliterate body, p).
Proof.
  induction bs as [| a bs IH]; intros params p G N Gb.
  - cbn. unfold bind. rewrite (generic_pure body Gb). cbn. now rewrite app_nil_r.
  - cbn [forallb] in G, N. apply andb_prop in G. destruct G as [Ga G].
    apply andb_prop in N. destruct N as [Na N].
    change ((a :: bs) ++ [body])%list with (a :: (bs ++ [body]))%list.
    specialize (IH) .
    destruct (bs ++ [body])%list as [| b rest] eqn:E.
    { destruct bs; discriminate. }
    rewrite letForm_more.
    destruct a as [v | v | subargs call | lhs rhs].
    + unfold bind, ret. rewrite IH by auto.
      cbn [flat_map binding]. now rewrite <- app_assoc.
    + unfold bind, ret. rewrite IH by auto. reflexivity.
    + unfold bind, ret. rewrite IH by auto. reflexivity.
    + destruct lhs as [v | v | subargs call | l2 r2]; try discriminate Na.
      cbn [generic] in Ga. cbn in Ga.
      unfold bind, ret. cbn [asVariable]. unfold ret.
      rewrite (generic_pure rhs Ga). rewrite IH by auto.
      cbn [flat_map binding]. now rewrite <- app_assoc.
Qed.

(** X17. [Let] over generic expressions: the arguments before the last
    are the parameters, a name as it is, an assignment to a name as
    [name = value], anything else left out without a word; the last
    argument is the body. *)
Theorem Let_renders_a_lambda :
  forall (bs : list Expression) (body : Expression) (p : Printer),
    forallb generic bs = true ->
    forallb namedBinding bs = true ->
    generic body = true ->
    printExpression (CallExpression (bs ++ [body]) "Let") p
    = Ok ("lambda " ++ Join (flat_map binding bs) ", " ++ ": "
          ++ transliterate body, p).
Proof.
  intros bs body p G N Gb. cbn [printExpression]. unfold bind.
  rewrite (mapM_pure printExpression transliterate).
  - cbn. rewrite (letForm_generic body bs [] p G N Gb). reflexivity.
  - apply Forall_forall. intros a Ha p0. apply generic_pure.
    apply in_app_or in Ha. destruct Ha as [Ha | [<- | []]]; [| exact Gb].
    rewrite forallb_forall in G. now apply G.
Qed.

Lemma Let_renders_a_lambda_witness :
  printExpression
    (CallOf "Let" [Var "x"; Assign (Var "y") (Num "10"); Num "7"; CallOf "f" [Var "x"; Var "y"]])
    (mkPrinter false false)
  = Ok ("lambda x, y = 10: f(x,y)", mkPrinter false false).
Proof.
  apply (Let_renders_a_lambda
           [Var "x"; Assign (Var "y") (Num "10"); Num "7"]
           (CallOf "f" [Var "x"; Var "y"]) (mkPrinter false false));
    reflexivity.
Defined.

(** X18. The sequence forms over generic arguments: [List] puts the
    renderings between square brackets, joined by a comma and a space;
    [Inc] appends [+1] to each rendering and joins them by commas, as
    text; [HashMap] is [dict()] whatever its arguments are. *)
Theorem sequence_forms :
  forall (args : list Expression) (p : Printer),
    forallb generic args = true ->
    printExpression (CallExpression args "List") p
      = Ok ("[" ++ Join (map transliterate args) ", " ++ "]", p)
    /\ printExpression (CallExpression args "Inc") p
       = Ok (Join (map (fun a => transliterate a ++ "+1") args) ",", p)
    /\ printExpression (CallExpression args "HashMap") p = Ok ("dict()", p).
Proof.
  intros args p G.
  assert (E : mapM printExpression args p = Ok (map transliterate args, p)).
  { apply mapM_pure. apply Forall_forall. intros a Ha p0. apply generic_pure.
    rewrite forallb_forall in G. now apply G. }
  repeat split; cbn [printExpression]; unfold bind; rewrite E; cbn;
    try reflexivity.
  now rewrite map_map.
Qed.

Lemma sequence_forms_witness :
  printExpression (CallOf "List" [Num "1"; Num "2"; Num "3"]) (mkPrinter false false)
    = Ok ("[1, 2, 3]", mkPrinter false false)
  /\ printExpression (CallOf "Inc" [Num "1"; Num "2"; Num "3"]) (mkPrinter false false)
     = Ok ("1+1,2+1,3+1", mkPrinter false false)
  /\ printExpression (CallOf "HashMap" [Num "1"; Num "2"; Num "3"]) (mkPrinter false false)
     = Ok ("dict()", mkPrinter false false).
Proof.
  apply (sequence_forms [Num "1"; Num "2"; Num "3"] (mkPrinter false false)).
  reflexivity.
Defined.

(** * The output file *)

Section Output.

Variable IsPathSeparator : ascii -> bool.

Lemma dotPrefixes_last base c :
  dotPrefixes (base ++ [c])
  = ((if Ascii.eqb c "." then [base] else []) ++ dotPrefixes base)%list.
Proof.
  induction base as [| x base IH]; cbn [app dotPrefixes].
  - destruct (Ascii.eqb c "."); reflexivity.
  - rewrite IH, map_app, <- app_assoc.
    destruct (Ascii.eqb c "."); reflexivity.
Qed.

Lemma writeOutputFrom_prefix value ext src extra i :
  i <= length src ->
  writeOutputFrom IsPathSeparator value (src ++ extra) ext i
  = writeOutputFrom IsPathSeparator value src ext i.
Proof.
  induction i as [| j IH]; intros L; cbn [writeOutputFrom]; [reflexivity |].
  rewrite nth_error_app1 by lia.
  destruct (nth_error src j) as [c |]; [| reflexivity].
  destruct (IsPathSeparator c); [reflexivity |].
  rewrite IH by lia. rewrite firstn_app.
  replace (j - length src) with 0 by lia. cbn [firstn]. now rewrite app_nil_r.
Qed.

Lemma writeOutputFrom_spec value ext dir : forall base,
  directory IsPathSeparator dir = true ->
  forallb (fun c => negb (IsPathSeparator c)) base = true ->
  writeOutputFrom IsPathSeparator value (dir ++ base) ext (length (dir ++ base))
  = map (fun pre => (string_of_list_ascii (dir ++ pre) ++ ext, value))
        (dotPrefixes base).
Proof.
  intros base D. induction base as [| c base IH] using rev_ind; intros N.
  - rewrite app_nil_r. unfold directory in D.
    destruct dir as [| x dir] using rev_ind; [reflexivity |].
    rewrite rev_app_distr in D. cbn in D.
    rewrite length_app, Nat.add_comm. cbn [length Nat.add writeOutputFrom].
    rewrite nth_error_app2 by lia. rewrite Nat.sub_diag. cbn. now rewrite D.
  - rewrite forallb_app in N. apply andb_prop in N. destruct N as [N Nc].
    cbn in Nc. rewrite andb_true_r in Nc. apply negb_true_iff in Nc.
    rewrite app_assoc, length_app, Nat.add_comm.
    cbn [length Nat.add writeOutputFrom].
    rewrite nth_error_app2 by lia. rewrite Nat.sub_diag. cbn [nth_error].
    rewrite Nc. rewrite writeOutputFrom_prefix by lia.
    rewrite IH by exact N.
    rewrite firstn_app, firstn_all, Nat.sub_diag. cbn [firstn].
    rewrite app_nil_r, dotPrefixes_last, map_app.
    destruct (Ascii.eqb c "."); reflexivity.
Qed.

(** X19. [writeOutput] writes the compiled text once for every dot of
    the last component of the source path, the last dot first, each
    time under the path cut at that dot with the extension added: one
    file for [prog.eicg], two ([a.b.py], then [a.py]) for [a.b.c], since
    the loop goes on after it has written. *)
Theorem writeOutput_writes_at_every_dot :
  forall (value ext : string) (dir base : list ascii),
    directory IsPathSeparator dir = true ->
    forallb (fun c => negb (IsPathSeparator c)) base = true ->
    writeOutput IsPathSeparator value (string_of_list_ascii (dir ++ base)) ext
    = map (fun pre => (string_of_list_ascii (dir ++ pre) ++ ext, value))
          (dotPrefixes base).
Proof.
  intros value ext dir base D N. unfold writeOutput.
  rewrite list_ascii_of_string_of_list_ascii.
  now apply writeOutputFrom_spec.
Qed.

(** X20. When the last component of the source path has no dot,
    [writeOutput] writes nothing: the compiled text is dropped, whatever
    dots the directories have. *)
Theorem writeOutput_without_extension :
  forall (value ext : string) (dir base : list ascii),
    directory IsPathSeparator dir = true ->
    forallb (fun c => negb (IsPathSeparator c) && negb (Ascii.eqb c ".")) base = true ->
    writeOutput IsPathSeparator value (string_of_list_ascii (dir ++ base)) ext = [].
Proof.
  intros value ext dir base D N. unfold writeOutput.
  rewrite list_ascii_of_string_of_list_ascii.
  rewrite writeOutputFrom_spec; auto.
  - replace (dotPrefixes base) with (@nil (list ascii)); [reflexivity |].
    clear D. induction base as [| c base IH]; [reflexivity |].
    cbn [forallb] in N. apply andb_prop in N. destruct N as [Nc N].
    apply andb_prop in Nc. destruct Nc as [_ Nc]. apply negb_true_iff in Nc.
    cbn [dotPrefixes]. rewrite Nc, <- IH by exact N. reflexivity.
  - clear D. induction base as [| c base IH]; [reflexivity |].
    cbn [forallb] in *. apply andb_prop in N. destruct N as [Nc N].
    apply andb_prop in Nc. destruct Nc as [Nc _]. rewrite Nc. now apply IH.
Qed.

End Output.

Lemma writeOutput_writes_at_every_dot_witness :
  writeOutput unixSeparator "x = 1" "src.v1/a.b.c" ".py"
  = [("src.v1/a.b.py", "x = 1"); ("src.v1/a.py", "x = 1")].
Proof.
  apply (writeOutput_writes_at_every_dot unixSeparator "x = 1" ".py"
           (list_ascii_of_string "src.v1/") (list_ascii_of_string "a.b.c"));
    reflexivity.
Defined.

Lemma writeOutput_without_extension_witness :
  writeOutput unixSeparator "x = 1" "src.v1/prog" ".py" = [].
Proof.
  apply (writeOutput_without_extension unixSeparator "x = 1" ".py"
           (list_ascii_of_string "src.v1/") (list_ascii_of_string "prog"));
    reflexivity.
Defined.

(** * The parser on the tokens of an expression *)

Section RoundTrip.

Variable U : UnicodeTables.












End RoundTrip.


